(** * backuppy: the streaming ZIP backup engine of [backup.py]

    A shallow embedding of [iter_files_with_size], [compression_from_args]
    and [backup_streaming], together with the part of the environment they
    talk to (pathlib paths, the directory tree under the source folder, the
    archive writer, the progress callback).

    Interaction with the outside world is recorded as a trace of effects:
    every function of the program is a computation in a small
    trace-and-exception monad, so that statements such as "no archive is
    created" or "the destination directory is created before the scan" are
    statements about the trace of a run. *)

From stdpp Require Import gmap strings list.
From Stdlib Require Import Ascii NArith ZArith Lia.

Local Open Scope N_scope.
#[local] Set Warnings "-register-all".

(** ** pathlib *)

Module Pathlib.

(** The two path flavours of pathlib; the host decides which one [Path]
    is, and with it the separator [str] prints. *)
Inductive Flavour := Posix | Windows.

Definition sep (fl : Flavour) : string :=
  match fl with Posix => "/" | Windows => "\" end.

(** A parsed path: the anchor (drive and root, [""] for a relative path)
    and the components after it. *)
Record Path := mkPath { anchor : string; parts : list string }.

#[global] Instance Path_eq_dec : EqDecision Path.
Proof. solve_decision. Defined.

(** [p / name] for a single component. *)
Definition child (p : Path) (name : string) : Path :=
  mkPath (anchor p) (parts p ++ [name]).

(** [p / q]: an anchored right operand replaces the left one. *)
Definition joinpath (p q : Path) : Path :=
  if bool_decide (anchor q = "") then mkPath (anchor p) (parts p ++ parts q)
  else q.

(** [p.name]: the last component, [""] when there is none. *)
Definition name (p : Path) : string := List.last (parts p) "".

(** [Path(s)] for a string holding at most one component. *)
Definition of_name (s : string) : Path :=
  mkPath "" (if bool_decide (s = "") then [] else [s]).

(** [str(p)] *)
Definition str (fl : Flavour) (p : Path) : string :=
  if bool_decide (anchor p = "") && bool_decide (parts p = [])
  then "."
  else anchor p +:+ String.concat (sep fl) (parts p).

(** [p.relative_to(other)]: [None] stands for the [ValueError]. *)
Definition relative_to (p other : Path) : option Path :=
  if bool_decide (anchor p = anchor other)
     && bool_decide (take (length (parts other)) (parts p) = parts other)
  then Some (mkPath "" (drop (length (parts other)) (parts p)))
  else None.

(** [s.replace("\\", "/")] *)
Fixpoint replace_backslash (s : string) : string :=
  match s with
  | EmptyString => EmptyString
  | String c s' =>
      String (if Ascii.eqb c "\" then "/"%char else c) (replace_backslash s')
  end.

End Pathlib.
Import Pathlib.

Infix "//" := child (at level 40, left associativity).

(** ** The directory tree under the source folder *)

(** What the program can observe of a directory entry that is not a
    directory: the size [p.stat()] reports ([None] when [stat] raises), the
    answer of [p.is_file()], and the number of bytes a later
    [p.open("rb")] delivers ([None] when the file cannot be opened). *)
Record file := mkFile {
  st_size : option N;
  is_file : bool;
  content : option N
}.

(** [Dir cs] is a directory with its listing in [os.scandir] order;
    [DirLink] is a symbolic link to a directory, which [os.walk] lists
    among [dirs] and, with [followlinks=False], never enters. A directory
    that cannot be listed yields no files either ([onerror=None]). *)
Inductive node :=
| Leaf (f : file)
| Dir (cs : list (string * node))
| DirLink.

Definition is_dir_entry (n : node) : bool :=
  match n with Leaf _ => false | _ => true end.

(** The [dirs] and [fnames] lists [os.walk] yields for a listing. *)
Definition dirs (cs : list (string * node)) : list (string * node) :=
  filter (fun e => is_dir_entry e.2 = true) cs.

Definition fnames (cs : list (string * node)) : list (string * file) :=
  omap (fun e => match e.2 with Leaf f => Some (e.1, f) | _ => None end) cs.

(** Entry [d] of a listing. *)
Definition entry (cs : list (string * node)) (d : string) : option node :=
  snd <$> List.find (fun e => bool_decide (e.1 = d)) cs.

(** The node reached from [n] along the components [rel]. *)
Fixpoint lookup_rel (n : node) (rel : list string) : option node :=
  match rel with
  | [] => Some n
  | d :: rel' =>
      match n with
      | Dir cs => match entry cs d with
                  | Some c => lookup_rel c rel'
                  | None => None
                  end
      | _ => None
      end
  end.

(** Names are unique within every directory. *)
Fixpoint wf_node (n : node) : bool :=
  match n with
  | Dir cs => bool_decide (NoDup cs.*1) && forallb (fun e => wf_node e.2) cs
  | _ => true
  end.

(** ** The environment of one run *)

Record World := mkWorld {
  w_flavour : Flavour;              (* path flavour of the host *)
  w_is_dir : bool;                  (* source.is_dir() *)
  w_resolved : Path;                (* source.resolve() *)
  w_listing : list (string * node); (* the tree found there *)
  w_mkdir_ok : bool;                (* dest_dir.mkdir(...) succeeds *)
  w_now : string;                   (* datetime.now().strftime("%Y%m%d-%H%M%S") *)
  w_zip_ok : bool                   (* the archive file can be created *)
}.

(** The components of [p] below the resolved source root. *)
Definition rel_of (w : World) (p : Path) : list string :=
  drop (length (parts (w_resolved w))) (parts p).

Definition fs_lookup (w : World) (p : Path) : option node :=
  if bool_decide (anchor p = anchor (w_resolved w))
     && bool_decide (take (length (parts (w_resolved w))) (parts p)
                     = parts (w_resolved w))
  then lookup_rel (Dir (w_listing w)) (rel_of w p)
  else None.

(** ** Effects and exceptions *)

Inductive exn :=
| ValueError (msg : string)
| OSError (p : Path).

Inductive effect :=
| EMkdir (p : Path)                    (* p.mkdir(parents=True, exist_ok=True) returned *)
| EScandir (p : Path)                  (* os.walk lists directory p *)
| EStat (p : Path) (r : option N)      (* p.stat() *)
| EIsFile (p : Path) (r : bool)        (* p.is_file() *)
| EZipCreate (p : Path) (compression : Z) (compresslevel : option Z)
| EOpenRead (p : Path)                 (* p.open("rb") returned *)
| EZipEntry (arcname : string) (compression : Z) (compresslevel : option Z)
| EWrite (n : N)                       (* fw.write(chunk), len(chunk) = n *)
| EProgress (processed total : N)      (* progress_cb(processed, total, _) *)
| EZipClose.

Definition trace := list effect.

(** A computation: the effects performed, and an exception or a value. *)
Definition M (A : Type) : Type := (trace * (exn + A))%type.

#[global] Instance M_ret : MRet M := fun A a => ([], inr a).
#[global] Instance M_bind : MBind M := fun A B f m =>
  match m.2 with
  | inl e => (m.1, inl e)
  | inr a => (m.1 ++ (f a).1, (f a).2)
  end.

Definition tell (e : effect) : M unit := ([e], inr tt).
Definition raise {A} (e : exn) : M A := ([], inl e).

(** [for x in l: acc = body(acc, x)] *)
Fixpoint for_each {A B} (body : A → B → M A) (l : list B) (acc : A) : M A :=
  match l with
  | [] => mret acc
  | x :: l' => acc' ← body acc x; for_each body l' acc'
  end.

Definition progress_events (t : trace) : list (N * N) :=
  omap (fun e => match e with EProgress p tot => Some (p, tot) | _ => None end) t.

(** ** The program *)

Definition CHUNK_SIZE : N := 8 * 1024 * 1024.

Definition DEFAULT_EXCLUDES : gset string :=
  {[ ".git"; "node_modules"; "venv"; "__pycache__"; "dist"; "build" ]}.

Definition ZIP_STORED : Z := 0.
Definition ZIP_DEFLATED : Z := 8.

(** *** [iter_files_with_size] *)

Definition stat (p : Path) (f : file) : M (option N) :=
  ([EStat p (st_size f)], inr (st_size f)).

Definition query_is_file (p : Path) (f : file) : M bool :=
  ([EIsFile p (is_file f)], inr (is_file f)).

(** The accumulators [files] and [total]. *)
Definition scan_acc : Type := (list Path * N)%type.

(** The body of [for name in fnames]. *)
Definition scan_file (base : Path) (acc : scan_acc) (e : string * file)
  : M scan_acc :=
  let p := base // e.1 in
  st ← stat p e.2;
  match st with
  | None => mret acc                                (* except: continue *)
  | Some sz =>
      b ← query_is_file p e.2;
      if (b : bool) then mret (acc.1 ++ [p], acc.2 + sz) else mret acc
  end.

(** Is the entry in [dirs] after the pruning
    [dirs[:] = [d for d in dirs if d not in excludes]]? *)
Definition entered (excludes : gset string) (e : string * node) : bool :=
  is_dir_entry e.2 && bool_decide (e.1 ∉ excludes).

(** The part of [os.walk] after a directory was yielded: every entry of
    its listing that is still in [dirs] is walked in turn. *)
Definition descend (walk : Path → node → scan_acc → M scan_acc)
    (excludes : gset string) (base : Path)
  : list (string * node) → scan_acc → M scan_acc :=
  fix go (l : list (string * node)) (acc : scan_acc) : M scan_acc :=
    match l with
    | [] => mret acc
    | e :: l' =>
        if entered excludes e
        then acc ← walk (base // e.1) e.2 acc; go l' acc
        else go l' acc
    end.

(** [os.walk] top-down from a directory, with the loop body of
    [iter_files_with_size] run at every directory it yields. *)
Fixpoint walk (excludes : gset string) (base : Path) (n : node)
    (acc : scan_acc) {struct n} : M scan_acc :=
  match n with
  | Dir cs =>
      tell (EScandir base);;
      acc ← for_each (scan_file base) (fnames cs) acc;
      descend (walk excludes) excludes base cs acc
  | _ => mret acc
  end.

(** [root.resolve()]: the world holds the answer for the source of the run. *)
Definition resolve (w : World) (root : Path) : Path := w_resolved w.

Definition iter_files_with_size (w : World) (root : Path)
    (excludes : gset string) : M scan_acc :=
  let root := resolve w root in
  walk excludes root (Dir (w_listing w)) ([], 0).

(** *** [compression_from_args] *)

Definition compression_from_args (kind : string) (level : option Z)
  : exn + (Z * option Z) :=
  if bool_decide (kind = "store") then inr (ZIP_STORED, None)
  else if bool_decide (kind = "deflate") then
    inr (ZIP_DEFLATED, Some (match level with Some l => l | None => 1%Z end))
  else inl (ValueError ("Unknown compression kind: " +:+ kind)).

(** *** [backup_streaming] *)

(** The archive object: [zf.open(name, "w")] gives every entry the
    compression method and level the archive was created with. *)
Record ZipFile := mkZipFile {
  zf_compression : Z;
  zf_compresslevel : option Z
}.

Definition mkdir (w : World) (p : Path) : M unit :=
  if w_mkdir_ok w then tell (EMkdir p) else raise (OSError p).

(** [with zipfile.ZipFile(path, mode="w", ...) as zf: body]; leaving the
    block closes the archive, also when [body] raises. *)
Definition with_ZipFile {A} (w : World) (archive_path : Path)
    (compression : Z) (compresslevel : option Z) (body : ZipFile → M A) : M A :=
  if w_zip_ok w then
    tell (EZipCreate archive_path compression compresslevel);;
    let r := body (mkZipFile compression compresslevel) in
    (r.1 ++ [EZipClose], r.2)
  else raise (OSError archive_path).

(** [fpath.open("rb")]: the number of bytes the stream will deliver. *)
Definition open_rb (w : World) (p : Path) : M N :=
  match fs_lookup w p with
  | Some (Leaf f) =>
      match content f with
      | Some n => tell (EOpenRead p);; mret n
      | None => raise (OSError p)
      end
  | _ => raise (OSError p)
  end.

Definition zf_open (zf : ZipFile) (arcname : string) : M unit :=
  tell (EZipEntry arcname (zf_compression zf) (zf_compresslevel zf)).

(** The [while True] loop over the chunks of one file; [remaining] is what
    [fr] still holds, so [fr.read(CHUNK_SIZE)] returns
    [min CHUNK_SIZE remaining] bytes. The loop is unrolled [fuel] times. *)
Fixpoint copy_loop (fuel : nat) (progress_cb : bool) (total remaining processed : N)
  : M N :=
  match fuel with
  | O => mret processed
  | S fuel' =>
      let chunk := N.min CHUNK_SIZE remaining in
      if chunk =? 0 then mret processed                  (* if not chunk: break *)
      else
        tell (EWrite chunk);;
        let processed := processed + chunk in
        (if progress_cb then tell (EProgress processed total) else mret tt);;
        copy_loop fuel' progress_cb total (remaining - chunk) processed
  end.

(** Enough unrollings for a stream of [size] bytes: one per full chunk, one
    for the rest and one for the empty read that ends the loop. *)
Definition copy_chunks (progress_cb : bool) (total size processed : N) : M N :=
  copy_loop (N.to_nat (size / CHUNK_SIZE) + 2) progress_cb total size processed.

(** The entry name given to [fpath]: [None] when [relative_to] raises. *)
Definition arcname (fl : Flavour) (source fpath : Path) : option string :=
  match relative_to fpath source with
  | None => None
  | Some rel =>
      let arcname := joinpath (of_name (name source)) rel in
      Some (replace_backslash (str fl arcname))
  end.

(** The body of [for fpath in files]; [processed] is threaded through. *)
Definition write_file (w : World) (source : Path) (zf : ZipFile)
    (progress_cb : bool) (total : N) (processed : N) (fpath : Path) : M N :=
  match arcname (w_flavour w) source fpath with
  | None =>
      raise (ValueError ("'" +:+ str (w_flavour w) fpath
                         +:+ "' is not in the subpath of '"
                         +:+ str (w_flavour w) source +:+ "'"))
  | Some entry_name =>
      size ← open_rb w fpath;
      zf_open zf entry_name;;
      copy_chunks progress_cb total size processed
  end.

(** [progress_cb] is [true] when a callback was passed; its invocations are
    the [EProgress] effects (the elapsed-time argument is left out). *)
Definition backup_streaming (w : World) (source dest_dir : Path)
    (compression : Z) (compresslevel : option Z) (excludes : gset string)
    (progress_cb : bool) : M Path :=
  if negb (w_is_dir w) then
    raise (ValueError ("Source is not a directory: " +:+ str (w_flavour w) source))
  else
    mkdir w dest_dir;;
    r ← iter_files_with_size w source excludes;
    let files := (r : scan_acc).1 in
    let total := r.2 in
    if total =? 0 then raise (ValueError "No files to back up")
    else
      let timestamp := w_now w in
      let archive_path := dest_dir // (name source +:+ "-" +:+ timestamp +:+ ".zip") in
      with_ZipFile w archive_path compression
        (match compresslevel with Some l => Some l | None => None end)
        (fun zf =>
           for_each (write_file w source zf progress_cb total) files 0);;
      (if progress_cb then tell (EProgress total total) else mret tt);;
      mret archive_path.

(** ** A sample run

    The tree [proj/{a.txt (5 B), .git/x (100 B), sub/b.txt (10 B)}]. *)

Definition regular (size : N) : node :=
  Leaf (mkFile (Some size) true (Some size)).

Definition proj_listing : list (string * node) :=
  [ ("a.txt", regular 5);
    (".git", Dir [("x", regular 100)]);
    ("sub", Dir [("b.txt", regular 10)]) ].

Definition proj_path : Path := mkPath "/" ["home"; "u"; "proj"].
Definition backups_path : Path := mkPath "/" ["home"; "u"; "backups"].

Definition proj_world : World :=
  mkWorld Posix true proj_path proj_listing true "20240101-120000" true.

Definition git_only : gset string := {[ ".git" ]}.


(** ** Notions the statements are phrased in *)

(** The entries of [fnames] the loop body keeps, with the size it adds. *)
Definition selected (fs : list (string * file)) : list (string * N) :=
  omap (fun e => match st_size e.2 with
                 | Some sz => if is_file e.2 then Some (e.1, sz) else None
                 | None => None
                 end) fs.

Definition select_entry (select : node → list (list string * N))
    (excludes : gset string) (e : string * node) : list (list string * N) :=
  if entered excludes e
  then map (fun r => (e.1 :: r.1, r.2)) (select e.2)
  else [].

(** The files a scan of [n] keeps, as paths relative to [n] with their
    sizes, in the order of the walk. *)
Fixpoint select (excludes : gset string) (n : node) : list (list string * N) :=
  match n with
  | Dir cs =>
      map (fun e => ([e.1], e.2)) (selected (fnames cs))
      ++ flat_map (select_entry (select excludes) excludes) cs
  | _ => []
  end.

Definition at_root (root : Path) (rel : list string) : Path :=
  mkPath (anchor root) (parts root ++ rel).

Definition sum_sizes (l : list N) : N := foldr N.add 0 l.

Definition add_selected (base : Path) (acc : scan_acc)
    (sel : list (list string * N)) : scan_acc :=
  (acc.1 ++ map (fun r => at_root base r.1) sel, acc.2 + sum_sizes sel.*2).

(** Is one of the components [ds] a name of the exclusion set? *)
Definition has_excluded (excludes : gset string) (ds : list string) : bool :=
  existsb (fun d => bool_decide (d ∈ excludes)) ds.

(** [p] lies under a directory below [root] whose name is excluded. *)
Definition below_excluded (excludes : gset string) (root p : Path) : bool :=
  has_excluded excludes (removelast (drop (length (parts root)) (parts p))).

(** The directory [p] is, or lies under, such a directory. *)
Definition inside_excluded (excludes : gset string) (root p : Path) : bool :=
  has_excluded excludes (drop (length (parts root)) (parts p)).

(** The size [stat] reports for the file at [p]. *)
Definition stat_size_at (w : World) (p : Path) : option N :=
  match fs_lookup w p with
  | Some (Leaf f) => st_size f
  | _ => None
  end.

(** What the scan touches: every directory listed and every file queried
    is reached from [base] through components that are not excluded. *)
Definition scan_effect_at (excludes : gset string) (base : Path) (e : effect)
  : Prop :=
  match e with
  | EScandir p =>
      ∃ rel, p = at_root base rel ∧ has_excluded excludes rel = false
  | EStat p _ | EIsFile p _ =>
      ∃ rel nm, p = at_root base (rel ++ [nm]) ∧ has_excluded excludes rel = false
  | _ => False
  end.

(** The result of scanning the world's tree. *)
Definition scanned (w : World) (excludes : gset string)
  : list (list string * N) :=
  select excludes (Dir (w_listing w)).

Definition scan_files (w : World) (excludes : gset string) : list Path :=
  map (fun r => at_root (w_resolved w) r.1) (scanned w excludes).

Definition scan_total (w : World) (excludes : gset string) : N :=
  sum_sizes (scanned w excludes).*2.

(** The number of bytes the file at [p] delivers when it is opened. *)
Definition content_at (w : World) (p : Path) : option N :=
  match fs_lookup w p with
  | Some (Leaf f) => content f
  | _ => None
  end.

(** Does the effect touch something under an excluded directory? *)
Definition touches_excluded (excludes : gset string) (root : Path)
    (e : effect) : bool :=
  match e with
  | EScandir p => inside_excluded excludes root p
  | EStat p _ | EIsFile p _ | EOpenRead p => below_excluded excludes root p
  | _ => false
  end.

(** Each value is at least its predecessor, starting from [lo]. *)
Fixpoint climbs (lo : N) (ps : list N) : Prop :=
  match ps with
  | [] => True
  | p :: ps' => lo ≤ p ∧ climbs p ps'
  end.

(** Non-decreasing from one element to the next. *)
Definition nondecreasing (ps : list N) : Prop :=
  ∀ i a b, ps !! i = Some a → ps !! S i = Some b → a ≤ b.

(** [fuel] unrollings of the chunk loop suffice for [remaining] bytes. *)
Definition enough (fuel : nat) (remaining : N) : Prop :=
  remaining + CHUNK_SIZE ≤ N.of_nat fuel * CHUNK_SIZE.

(** The effects of copying one stream. *)
Definition copy_effect (total : N) (e : effect) : Prop :=
  match e with
  | EWrite _ => True
  | EProgress _ t => t = total
  | _ => False
  end.

(** The archive path of a run, and its write pass. *)
Definition archive_path_of (w : World) (source dest_dir : Path) : Path :=
  dest_dir // (name source +:+ "-" +:+ w_now w +:+ ".zip").

Definition write_pass (w : World) (source : Path) (compression : Z)
    (compresslevel : option Z) (excludes : gset string) (progress_cb : bool)
  : M N :=
  for_each (write_file w source (mkZipFile compression compresslevel)
              progress_cb (scan_total w excludes))
    (scan_files w excludes) 0.

(** The effects of the write pass over [files]. *)
Definition write_effect (w : World) (source : Path) (compression : Z)
    (compresslevel : option Z) (total : N) (files : list Path) (e : effect)
  : Prop :=
  match e with
  | EOpenRead q => q ∈ files
  | EZipEntry nm c l =>
      c = compression ∧ l = compresslevel
      ∧ ∃ q, q ∈ files ∧ arcname (w_flavour w) source q = Some nm
  | EWrite _ => True
  | EProgress _ t => t = total
  | _ => False
  end.

Definition empty_source_error : exn := ValueError "No files to back up".

(** Does the trace create the archive file? *)
Definition creates_archive (t : trace) : bool :=
  existsb (fun e => match e with EZipCreate _ _ _ => true | _ => false end) t.

(** Sample worlds: a source that is not a directory, a source whose whole
    content is excluded, and a source that holds only empty files. *)
Definition missing_world : World :=
  mkWorld Posix false proj_path [] true "20240101-120000" true.

Definition all_excluded_world : World :=
  mkWorld Posix true proj_path [(".git", Dir [("x", regular 100)])]
    true "20240101-120000" true.

Definition empty_files_world : World :=
  mkWorld Posix true proj_path
    [("empty.txt", regular 0); ("sub", Dir [("also_empty", regular 0)])]
    true "20240101-120000" true.

(** What a run may do, effect by effect. *)
Definition run_effect (w : World) (source dest_dir : Path) (compression : Z)
    (compresslevel : option Z) (excludes : gset string) (e : effect) : Prop :=
  match e with
  | EMkdir p => p = dest_dir
  | EScandir _ | EStat _ _ | EIsFile _ _ =>
      scan_effect_at excludes (w_resolved w) e
  | EZipCreate p c l =>
      p = archive_path_of w source dest_dir
      ∧ c = compression ∧ l = compresslevel
  | EOpenRead _ | EZipEntry _ _ _ | EWrite _ =>
      write_effect w source compression compresslevel
        (scan_total w excludes) (scan_files w excludes) e
  | EProgress _ t => t = scan_total w excludes
  | EZipClose => True
  end.

(** The compression an effect writes with, if it writes. *)
Definition written_with (e : effect) : option (Z * option Z) :=
  match e with
  | EZipCreate _ c l | EZipEntry _ c l => Some (c, l)
  | _ => None
  end.

(** The tree without the entries [stat] fails on. *)
Definition keep_statable (rec : node → node) (e : string * node)
  : option (string * node) :=
  match e.2 with
  | Leaf f => match st_size f with Some _ => Some e | None => None end
  | _ => Some (e.1, rec e.2)
  end.

Fixpoint statable_only (n : node) : node :=
  match n with
  | Dir cs => Dir (omap (keep_statable statable_only) cs)
  | _ => n
  end.

(** How many events report [processed = total]. *)
Definition times_at_total (evs : list (N * N)) : nat :=
  length (filter (fun ev => ev.1 = ev.2) evs).

(** The string holds no backslash. *)
Fixpoint no_backslash (s : string) : bool :=
  match s with
  | EmptyString => true
  | String c s' => negb (Ascii.eqb c "\") && no_backslash s'
  end.

(** The base name of the source as a list of components. *)
Definition base_parts (source : Path) : list string :=
  if bool_decide (name source = "") then [] else [name source].

(** The entry name written as base name, slash, relative path. *)
Definition claimed_entry_name (source : Path) (rel : list string) : string :=
  name source +:+ "/" +:+ String.concat "/" rel.

(** Sample worlds: the file system root as source, a POSIX file name that
    holds a backslash, and a source given as the relative path [proj]. *)
Definition root_path : Path := mkPath "/" [].

Definition root_world : World :=
  mkWorld Posix true root_path [("etc", Dir [("hosts", regular 7)])]
    true "20240101-120000" true.

Definition backslash_world : World :=
  mkWorld Posix true proj_path [("a\b.txt", regular 5)]
    true "20240101-120000" true.

Definition relative_proj : Path := mkPath "" ["proj"].

(** ** Projections of a trace *)

(** The entry names written to the archive, the files opened for reading
    and the lengths of the chunks written, each in the order of the run. *)
Definition entry_names (t : trace) : list string :=
  omap (fun e => match e with EZipEntry nm _ _ => Some nm | _ => None end) t.

Definition opened (t : trace) : list Path :=
  omap (fun e => match e with EOpenRead p => Some p | _ => None end) t.

Definition written (t : trace) : list N :=
  omap (fun e => match e with EWrite n => Some n | _ => None end) t.

Definition is_progress (e : effect) : bool :=
  match e with EProgress _ _ => true | _ => false end.

(** The trace without the invocations of the callback. *)
Definition without_progress (t : trace) : trace :=
  List.filter (fun e => negb (is_progress e)) t.

(** A chunk handed to [fw.write] is not empty and at most [CHUNK_SIZE]. *)
Definition chunk_ok (e : effect) : Prop :=
  match e with
  | EWrite n => 0 < n ∧ n ≤ CHUNK_SIZE
  | _ => True
  end.

(** Sample worlds: a file that grew after the scan, and a file that
    vanished after the scan. *)
Definition grown_world : World :=
  mkWorld Posix true proj_path [("a.txt", Leaf (mkFile (Some 5) true (Some 8)))]
    true "20240101-120000" true.


(** A sample world: a regular file that bears an excluded name. *)
Definition file_named_build_world : World :=
  mkWorld Posix true proj_path
    [("build", regular 3); ("dist", Dir [("out.js", regular 9)])]
    true "20240101-120000" true.

(** What one entry of a listing contributes to [select]. *)
Definition contribution (excludes : gset string) (e : string * node)
  : list (list string * N) :=
  map (fun e => ([e.1], e.2)) (selected (fnames [e]))
  ++ select_entry (select excludes) excludes e.

(** ** The front ends: parsing the exclusion list

    [{s.strip() for s in text.split(",") if s.strip()}], as [main] and
    [BackupApp.start_backup] both write it. A character is a code point
    below 256. *)

(** [c.isspace()] for a code point below 256. *)
Definition isspace (c : ascii) : bool :=
  let n := N_of_ascii c in
  ((9 <=? n) && (n <=? 13)) || ((28 <=? n) && (n <=? 32))
  || (n =? 133) || (n =? 160).

(** [s.split(sep)] for a separator of one character. *)
Fixpoint split_on (sep : ascii) (s : string) : list string :=
  match s with
  | EmptyString => [EmptyString]
  | String c s' =>
      if Ascii.eqb c sep then EmptyString :: split_on sep s'
      else match split_on sep s' with
           | [] => [String c EmptyString]
           | x :: xs => String c x :: xs
           end
  end.

Fixpoint lstrip (s : string) : string :=
  match s with
  | EmptyString => EmptyString
  | String c s' => if isspace c then lstrip s' else s
  end.

Fixpoint rstrip (s : string) : string :=
  match s with
  | EmptyString => EmptyString
  | String c s' =>
      match rstrip s' with
      | EmptyString => if isspace c then EmptyString else String c EmptyString
      | r => String c r
      end
  end.

(** [s.strip()] *)
Definition strip (s : string) : string := rstrip (lstrip s).

Definition nonempty (s : string) : bool :=
  match s with EmptyString => false | _ => true end.

Definition parse_excludes (text : string) : gset string :=
  list_to_set (List.filter nonempty (map strip (split_on "," text))).






(** ** The command line front end: [main] and its [print_progress] *)

(** The parsed arguments [main] reads. *)
Record Args := mkArgs {
  a_source : option string;
  a_dest : option string;
  a_compression : string;
  a_level : option Z;
  a_exclude : string;
  a_gui : bool
}.

(** Truth value of an optional string: [None] and [""] are false. *)
Definition truthy (o : option string) : bool :=
  match o with Some s => nonempty s | None => false end.

(** [0 if tot == 0 else (done * 100 // tot)] *)
Definition pct (done tot : N) : N :=
  if tot =? 0 then 0 else done * 100 / tot.

(** How a call of [main] ends: the window was run; the message that
    Tkinter is missing and [sys.exit(2)]; an exception that leaves [main];
    ["Error: ..."] and [sys.exit(1)]; or ["Backup created: ..."]. The last
    two carry the percentages of the progress lines printed before. *)
Inductive cli_result :=
| GuiStarted
| NoTk
| Uncaught (e : exn)
| Failed (e : exn) (lines : list N)
| Created (out : Path) (lines : list N).


Section Cli.

(** Readings of [time.time()] are kept abstract: [due now last] stands for
    [now - last >= 0.25], [t0] for the initial [last_print = 0], and
    [clock i] for the reading taken in the [i]-th call of the callback.
    [to_path s] stands for [Path(s).expanduser()], which raises when the
    home directory of a [~user] prefix cannot be found. *)
Context {T : Type}.
Variable due : T → T → bool.
Variable t0 : T.
Variable to_path : string → exn + Path.

(** One call of [print_progress]: the percentage printed, if a line is
    printed, and the new [last_print]. *)
Definition print_progress (last_print now : T) (done tot : N) : option N * T :=
  if due now last_print || (done =? tot)
  then (Some (pct done tot), now)
  else (None, last_print).

(** The lines printed over the calls [evs], the first of them call [i]. *)
Fixpoint printed (last_print : T) (clock : nat → T) (i : nat)
    (evs : list (N * N)) : list N :=
  match evs with
  | [] => []
  | ev :: evs' =>
      let r := print_progress last_print (clock i) ev.1 ev.2 in
      match r.1 with Some p => [p] | None => [] end
      ++ printed r.2 clock (S i) evs'
  end.

(** What [main] computes before its [try] block: the two paths and the
    compression, or the exception one of the three steps raises. *)
Definition prepared (args : Args) : exn + (Path * Path * (Z * option Z)) :=
  match to_path (default "" (a_source args)) with
  | inl e => inl e
  | inr src =>
      match to_path (default "" (a_dest args)) with
      | inl e => inl e
      | inr dst =>
          match compression_from_args (a_compression args) (a_level args) with
          | inl e => inl e
          | inr cl => inr (src, dst, cl)
          end
      end
  end.

Definition main (TK_OK : bool) (w : World) (clock : nat → T) (args : Args)
  : cli_result :=
  if a_gui args || negb (truthy (a_source args) && truthy (a_dest args)) then
    if negb TK_OK then NoTk else GuiStarted
  else
    match prepared args with
    | inl e => Uncaught e
    | inr (src, dst, (compression, compresslevel)) =>
        let excludes := parse_excludes (a_exclude args) in
        let run := backup_streaming w src dst compression compresslevel
                     excludes true in
        let lines := printed t0 clock 0 (progress_events run.1) in
        match run.2 with
        | inr out => Created out lines
        | inl e => Failed e lines
        end
    end.

End Cli.

(** Sample arguments: [--source /home/u/proj --dest /home/u/backups]. *)
Definition sample_to_path (s : string) : exn + Path :=
  if bool_decide (s = "/home/u/proj") then inr proj_path else inr backups_path.

Definition sample_args : Args :=
  mkArgs (Some "/home/u/proj") (Some "/home/u/backups") "store" None
    ".git" false.

(** A clock in hundredths of a second that advances by 0.1 s per call. *)
Definition sample_due (now last : nat) : bool := (25 <=? now - last)%nat.
Definition sample_clock (i : nat) : nat := (1000 + 10 * i)%nat.

(** [main] goes on to the backup itself: no [--gui], and both [--source]
    and [--dest] given and not empty. *)
Definition headless (args : Args) : bool :=
  negb (a_gui args) && truthy (a_source args) && truthy (a_dest args).


(** ** The window front end: [BackupApp.start_backup] and its worker *)

(** The texts the status line is set to. *)
Inductive status :=
| SScanning                 (* "Scanning files…" *)
| SNoFiles                  (* "No files to back up." *)
| SBackingUp                (* "Backing up…" *)
| SCreated (out : Path)     (* "Backup created: ..." *)
| SFailed.                  (* "Backup failed." *)

(** What reaches the window. *)
Inductive ui :=
| UWarning (msg : string)           (* messagebox.showwarning *)
| UReset                            (* bar, percentage and speed set back *)
| UStatus (s : status)              (* _post_status / status_var.set *)
| UProgress (processed total : N)   (* _post_progress *)
| UInfo (out : Path)                (* messagebox.showinfo *)
| UError (e : exn).                 (* messagebox.showerror *)

(** An event of a click on "Create Backup": an effect on the file system
    or something shown in the window, in the order the code issues them
    (the worker thread is taken to run to its end). *)
Inductive gui_event :=
| Fs (e : effect)
| Ui (u : ui).

(** The compression box: [comp_choice.startswith("Store")], then
    ["level 1" in comp_choice]. *)
Definition gui_compression (choice : string) : string * option Z :=
  if String.prefix "Store" choice then ("store", None)
  else match String.index 0 "level 1" choice with
       | Some _ => ("deflate", Some 1%Z)
       | None => ("deflate", Some 9%Z)
       end.

(** [on_progress] hands every call of the callback to [_post_progress]. *)
Definition to_gui (e : effect) : gui_event :=
  match e with
  | EProgress p t => Ui (UProgress p t)
  | _ => Fs e
  end.

Definition worker (w : World) (src dst : Path) (compression : Z)
    (compresslevel : option Z) (excludes : gset string) : list gui_event :=
  let scan := iter_files_with_size w src excludes in
  map Fs scan.1
  ++ match scan.2 with
     | inl e => [Ui (UStatus SFailed); Ui (UError e)]
     | inr r =>
         let total := (r : scan_acc).2 in
         if total =? 0 then [Ui (UStatus SNoFiles)]
         else
           let run := backup_streaming w src dst compression compresslevel
                        excludes true in
           [Ui (UStatus SBackingUp); Ui (UProgress 0 total)]
           ++ map to_gui run.1
           ++ match run.2 with
              | inr out =>
                  [Ui (UProgress total total); Ui (UStatus (SCreated out));
                   Ui (UInfo out)]
              | inl e => [Ui (UStatus SFailed); Ui (UError e)]
              end
     end.

(** The events of a click, and the exception that leaves [start_backup],
    if one does, from [src.is_dir()] on: [src] and [dst] are the two path
    fields after [Path(...).expanduser()], and [dst_is_dir] is the answer
    of [dst.is_dir()]. The tree of [w] is the one both the worker's scan
    and the scan inside [backup_streaming] see. *)
Definition start_backup (w : World) (dst_is_dir : bool) (src dst : Path)
    (choice exclude_text : string) : list gui_event * option exn :=
  if negb (w_is_dir w) then
    ([Ui (UWarning "Select a valid project folder.")], None)
  else if negb dst_is_dir then
    ([Ui (UWarning "Select a valid backup destination.")], None)
  else
    let kl := gui_compression choice in
    match compression_from_args kl.1 kl.2 with
    | inl e => ([], Some e)
    | inr cl =>
        let excludes := parse_excludes exclude_text in
        ([Ui (UStatus SScanning); Ui UReset]
         ++ worker w src dst cl.1 cl.2 excludes, None)
    end.

(** The effects on the file system among the events, and the progress
    posted to the window. *)
Definition fs_effects (evs : list gui_event) : trace :=
  omap (fun ev => match ev with Fs e => Some e | _ => None end) evs.

Definition ui_progress (evs : list gui_event) : list (N * N) :=
  omap (fun ev => match ev with Ui (UProgress p t) => Some (p, t) | _ => None end)
    evs.

Definition ui_errors (evs : list gui_event) : list exn :=
  omap (fun ev => match ev with Ui (UError e) => Some e | _ => None end) evs.


(** The archive files a trace creates. *)
Definition created (t : trace) : list Path :=
  omap (fun e => match e with EZipCreate p _ _ => Some p | _ => None end) t.

(** The string holds no occurrence of the character. *)
Fixpoint free_of (c : ascii) (s : string) : bool :=
  match s with
  | EmptyString => true
  | String c' s' => negb (Ascii.eqb c' c) && free_of c s'
  end.

(** A component of a path as a file system has it: free of ["/"]. *)
Definition plain (s : string) : bool := free_of "/" s && no_backslash s.

(** * Proofs *)

Lemma node_ind' (P : node → Prop) :
  (∀ f, P (Leaf f)) →
  (∀ cs, Forall (fun e => P e.2) cs → P (Dir cs)) →
  P DirLink →
  ∀ n, P n.
Proof.
  intros Hleaf Hdir Hlink. fix IH 1. intros [f|cs|].
  - apply Hleaf.
  - apply Hdir. induction cs as [|e cs IHcs]; constructor.
    + apply IH.
    + apply IHcs.
  - apply Hlink.
Qed.

(** ** The monad *)

Lemma bind_inr {A B} (f : A → M B) (t : trace) (a : A) :
  mbind f ((t, inr a) : M A) = (t ++ (f a).1, (f a).2).
Proof. reflexivity. Qed.

Lemma bind_inl {A B} (f : A → M B) (t : trace) (e : exn) :
  mbind f ((t, inl e) : M A) = (t, inl e).
Proof. reflexivity. Qed.

Lemma bind_tell {B} (f : unit → M B) (e : effect) :
  mbind f (tell e) = (e :: (f tt).1, (f tt).2).
Proof. reflexivity. Qed.

Lemma bind_mret {A B} (f : A → M B) (a : A) : mbind f (mret a) = f a.
Proof. unfold mbind, M_bind, mret, M_ret; cbn. by destruct (f a). Qed.

Lemma bind_ext {A B} (f g : A → M B) (m : M A) :
  (∀ a, f a = g a) → mbind f m = mbind g m.
Proof.
  intros H. destruct m as [t [e|a]]; [done|]. by rewrite !bind_inr, H.
Qed.



(** ** The scan *)

Lemma at_root_child base d rel :
  at_root (base // d) rel = at_root base (d :: rel).
Proof. unfold at_root, child; cbn. by rewrite <- app_assoc. Qed.

Lemma add_selected_nil base acc : add_selected base acc [] = acc.
Proof.
  destruct acc as [fs tot]. unfold add_selected; cbn.
  by rewrite app_nil_r, N.add_0_r.
Qed.

Lemma sum_sizes_app l1 l2 : sum_sizes (l1 ++ l2) = sum_sizes l1 + sum_sizes l2.
Proof.
  unfold sum_sizes. induction l1 as [|x l1 IH]; cbn; [done|]. rewrite IH. lia.
Qed.

Lemma add_selected_app base acc s1 s2 :
  add_selected base (add_selected base acc s1) s2 = add_selected base acc (s1 ++ s2).
Proof.
  unfold add_selected; cbn [fst snd]. f_equal.
  - by rewrite map_app, app_assoc.
  - rewrite fmap_app, sum_sizes_app. lia.
Qed.

Lemma add_selected_child base d acc sel :
  add_selected (base // d) acc sel
  = add_selected base acc (map (fun r => (d :: r.1, r.2)) sel).
Proof.
  unfold add_selected. f_equal.
  - f_equal. rewrite map_map. apply map_ext. intros r. apply at_root_child.
  - f_equal. f_equal. induction sel as [|r sel IH]; cbn; [done|]. by rewrite IH.
Qed.

Lemma scan_file_result base acc e :
  (scan_file base acc e).2
  = inr (add_selected base acc (map (fun e => ([e.1], e.2)) (selected [e]))).
Proof.
  destruct e as [nm [[sz|] [] c]], acc as [fs tot];
    unfold add_selected, sum_sizes; cbn;
    rewrite ?app_nil_r, ?N.add_0_r; reflexivity.
Qed.

Lemma for_each_scan_file_result base fs acc :
  (for_each (scan_file base) fs acc).2
  = inr (add_selected base acc (map (fun e => ([e.1], e.2)) (selected fs))).
Proof.
  revert acc. induction fs as [|e fs IH]; intros acc.
  - cbn. by rewrite add_selected_nil.
  - cbn [for_each]. pose proof (scan_file_result base acc e) as He.
    destruct (scan_file base acc e) as [t r]; cbn in He; subst r.
    rewrite bind_inr. cbn [snd]. rewrite IH, add_selected_app. do 2 f_equal.
    rewrite <- map_app. f_equal. unfold selected.
    change (e :: fs) with ([e] ++ fs). by rewrite omap_app.
Qed.

Lemma descend_result excludes base l :
  Forall (fun e => ∀ base acc,
            (walk excludes base e.2 acc).2
            = inr (add_selected base acc (select excludes e.2))) l →
  ∀ acc, (descend (walk excludes) excludes base l acc).2
         = inr (add_selected base acc
                  (flat_map (select_entry (select excludes) excludes) l)).
Proof.
  induction 1 as [|e l He _ IH]; intros acc.
  - cbn. by rewrite add_selected_nil.
  - cbn [descend flat_map]. unfold select_entry at 1.
    destruct (entered excludes e).
    + specialize (He (base // e.1) acc).
      destruct (walk excludes (base // e.1) e.2 acc) as [t r]; cbn in He; subst r.
      rewrite bind_inr; cbn [snd]. fold (descend (walk excludes) excludes base).
      by rewrite IH, add_selected_child, add_selected_app.
    + fold (descend (walk excludes) excludes base). by rewrite IH.
Qed.

(** The scan never raises, and its result is [select]. *)
Lemma walk_result excludes n :
  ∀ base acc,
    (walk excludes base n acc).2 = inr (add_selected base acc (select excludes n)).
Proof.
  induction n as [f|cs IH|] using node_ind'; intros base acc.
  - cbn. by rewrite add_selected_nil.
  - cbn [walk]. unfold tell. rewrite bind_inr.
    pose proof (for_each_scan_file_result base (fnames cs) acc) as Hf.
    destruct (for_each (scan_file base) (fnames cs) acc) as [t r];
      cbn in Hf; subst r.
    rewrite bind_inr; cbn [snd].
    rewrite (descend_result _ _ _ IH). cbn [select].
    by rewrite add_selected_app.
  - cbn. by rewrite add_selected_nil.
Qed.

Lemma scan_effect_at_child excludes base d e :
  d ∉ excludes →
  scan_effect_at excludes (base // d) e → scan_effect_at excludes base e.
Proof.
  intros Hd. assert (bool_decide (d ∈ excludes) = false) as Hb
    by by apply bool_decide_eq_false.
  destruct e; cbn; try done.
  - intros (rel & -> & Hrel). exists (d :: rel). rewrite at_root_child.
    split; [done|]. cbn. by rewrite Hb.
  - intros (rel & nm & -> & Hrel). exists (d :: rel), nm. rewrite at_root_child.
    split; [done|]. cbn. by rewrite Hb.
  - intros (rel & nm & -> & Hrel). exists (d :: rel), nm. rewrite at_root_child.
    split; [done|]. cbn. by rewrite Hb.
Qed.

Lemma scan_file_trace excludes base acc e :
  Forall (scan_effect_at excludes base) (scan_file base acc e).1.
Proof.
  destruct e as [nm [[sz|] [] c]]; cbn; repeat constructor;
    by exists [], nm.
Qed.

Lemma bind_trace_Forall {A B} (P : effect → Prop) (f : A → M B) (m : M A) :
  Forall P m.1 → (∀ a, Forall P (f a).1) → Forall P (mbind f m).1.
Proof.
  intros Hm Hf. destruct m as [t [e|a]]; cbn in *; [done|].
  apply Forall_app. split; [done|apply Hf].
Qed.

Lemma for_each_trace_Forall {A B} (P : effect → Prop)
    (body : A → B → M A) (l : list B) :
  (∀ acc x, x ∈ l → Forall P (body acc x).1) →
  ∀ acc, Forall P (for_each body l acc).1.
Proof.
  induction l as [|x l IH]; intros Hb acc; cbn [for_each].
  - constructor.
  - apply bind_trace_Forall.
    + apply Hb. by left.
    + intros a. apply IH. intros acc' y Hy. apply Hb. by right.
Qed.

Lemma descend_trace excludes base l :
  Forall (fun e => ∀ base acc,
            Forall (scan_effect_at excludes base) (walk excludes base e.2 acc).1) l →
  ∀ acc, Forall (scan_effect_at excludes base)
           (descend (walk excludes) excludes base l acc).1.
Proof.
  induction 1 as [|e l He _ IH]; intros acc; cbn [descend].
  - constructor.
  - fold (descend (walk excludes) excludes base).
    destruct (entered excludes e) eqn:Hent; [|apply IH].
    apply bind_trace_Forall; [|intros a; apply IH].
    unfold entered in Hent. apply andb_prop in Hent as [_ Hd].
    apply bool_decide_eq_true in Hd.
    eapply Forall_impl; [apply He|]. intros x. by apply scan_effect_at_child.
Qed.

Lemma walk_trace excludes n :
  ∀ base acc, Forall (scan_effect_at excludes base) (walk excludes base n acc).1.
Proof.
  induction n as [f|cs IH|] using node_ind'; intros base acc; cbn [walk].
  - constructor.
  - apply bind_trace_Forall.
    + repeat constructor. exists []. split; [|done].
      unfold at_root. rewrite app_nil_r. by destruct base.
    + intros _. apply bind_trace_Forall.
      * apply for_each_trace_Forall. intros acc' x _. apply scan_file_trace.
      * intros a. by apply descend_trace.
  - constructor.
Qed.

(** ** The files the scan keeps *)

Lemma fnames_elem cs nm f : (nm, f) ∈ fnames cs ↔ (nm, Leaf f) ∈ cs.
Proof.
  unfold fnames. rewrite list_elem_of_omap. split.
  - intros ([d [g|l|]] & Hin & Heq); cbn in Heq; simplify_eq. done.
  - intros Hin. by exists (nm, Leaf f).
Qed.

Lemma selected_elem fs nm sz :
  (nm, sz) ∈ selected fs ↔
  ∃ f, (nm, f) ∈ fs ∧ st_size f = Some sz ∧ is_file f = true.
Proof.
  unfold selected. rewrite list_elem_of_omap. split.
  - intros ([d f] & Hin & Heq); cbn in Heq.
    destruct (st_size f) as [sz'|] eqn:Hst; [|done].
    destruct (is_file f) eqn:Hf; [|done]. simplify_eq. by exists f.
  - intros (f & Hin & Hst & Hf). exists (nm, f). split; [done|].
    cbn. by rewrite Hst, Hf.
Qed.

(** An element of [select]: a kept file of this directory, or a kept file
    of a sub-directory that is entered. *)
Lemma select_Dir_elem excludes cs r :
  r ∈ select excludes (Dir cs) ↔
  (∃ nm f, r = ([nm], r.2) ∧ (nm, Leaf f) ∈ cs
           ∧ st_size f = Some r.2 ∧ is_file f = true)
  ∨ (∃ d c r', (d, c) ∈ cs ∧ entered excludes (d, c) = true
               ∧ r' ∈ select excludes c ∧ r = (d :: r'.1, r'.2)).
Proof.
  cbn [select]. rewrite list_elem_of_In, in_app_iff, in_map_iff, in_flat_map.
  split.
  - intros [([nm sz] & <- & Hin)|([d c] & Hin & Hr)].
    + left. apply list_elem_of_In, selected_elem in Hin as (f & Hin & Hst & Hf).
      apply fnames_elem in Hin. by exists nm, f.
    + right. unfold select_entry in Hr.
      destruct (entered excludes (d, c)) eqn:Hent; [|by destruct Hr].
      cbn [fst snd] in Hr. apply in_map_iff in Hr as (r' & <- & Hr').
      exists d, c, r'. by rewrite !list_elem_of_In.
  - intros [(nm & f & Hr & Hin & Hst & Hf)|(d & c & r' & Hin & Hent & Hr' & ->)].
    + left. exists (nm, r.2). split; [by rewrite Hr|].
      apply list_elem_of_In, selected_elem. exists f. by rewrite fnames_elem.
    + right. exists (d, c). rewrite <- list_elem_of_In. split; [done|].
      unfold select_entry. rewrite Hent. apply in_map_iff.
      exists r'. by rewrite <- list_elem_of_In.
Qed.

(** No kept file lies under an excluded directory name. *)
Lemma select_clean excludes n :
  ∀ r, r ∈ select excludes n →
       ∃ ds nm, r.1 = ds ++ [nm] ∧ has_excluded excludes ds = false.
Proof.
  induction n as [f|cs IH|] using node_ind'; intros r Hr; [by inversion Hr| |by inversion Hr].
  apply select_Dir_elem in Hr
    as [(nm & f & Hr & _)|(d & c & r' & Hin & Hent & Hr' & ->)].
  - exists [], nm. by rewrite Hr.
  - rewrite Forall_forall in IH. destruct (IH _ Hin _ Hr') as (ds & nm & Hds & Hex).
    exists (d :: ds), nm. cbn [fst]. rewrite Hds. split; [done|].
    unfold entered in Hent. apply andb_prop in Hent as [_ Hd]. cbn in Hd.
    apply bool_decide_eq_true in Hd. unfold has_excluded in *. cbn [existsb].
    by rewrite Hex, (bool_decide_eq_false_2 _ Hd).
Qed.

Lemma entry_NoDup cs d c : NoDup cs.*1 → (d, c) ∈ cs → entry cs d = Some c.
Proof.
  unfold entry. induction cs as [|[d' c'] cs IH]; intros Hnd Hin; [by inversion Hin|].
  cbn in Hnd. apply NoDup_cons in Hnd as [Hd' Hnd]. cbn.
  apply elem_of_cons in Hin as [Heq|Hin].
  - simplify_eq. by rewrite bool_decide_eq_true_2.
  - rewrite bool_decide_eq_false_2; [by apply IH|].
    intros ->. apply Hd'. apply list_elem_of_fmap. by exists (d, c).
Qed.

Lemma wf_node_Dir cs :
  wf_node (Dir cs) = true →
  NoDup cs.*1 ∧ ∀ d c, (d, c) ∈ cs → wf_node c = true.
Proof.
  cbn. intros [Hnd Hall]%andb_prop. split; [by apply bool_decide_eq_true in Hnd|].
  intros d c Hin. rewrite forallb_forall in Hall.
  by apply (Hall (d, c)), list_elem_of_In.
Qed.

(** In a well-formed tree every kept file is found again by its relative
    path, with the size the scan added. *)
Lemma select_lookup excludes n :
  wf_node n = true →
  ∀ r, r ∈ select excludes n →
       ∃ f, lookup_rel n r.1 = Some (Leaf f)
            ∧ st_size f = Some r.2 ∧ is_file f = true.
Proof.
  induction n as [f|cs IH|] using node_ind'; intros Hwf r Hr;
    [by inversion Hr| |by inversion Hr].
  apply wf_node_Dir in Hwf as [Hnd Hwf].
  apply select_Dir_elem in Hr
    as [(nm & f & Hr & Hin & Hst & Hf)|(d & c & r' & Hin & Hent & Hr' & ->)].
  - exists f. rewrite Hr. cbn. by rewrite (entry_NoDup _ _ _ Hnd Hin).
  - rewrite Forall_forall in IH.
    destruct (IH _ Hin (Hwf _ _ Hin) _ Hr') as (f & Hl & Hst & Hf).
    exists f. cbn. by rewrite (entry_NoDup _ _ _ Hnd Hin).
Qed.

(** ** The scan of a world *)

Lemma iter_files_with_size_result w source excludes :
  (iter_files_with_size w source excludes).2
  = inr (scan_files w excludes, scan_total w excludes).
Proof.
  unfold iter_files_with_size, resolve. rewrite walk_result.
  unfold add_selected, scan_files, scan_total, scanned. cbn [fst snd app].
  by rewrite N.add_0_l.
Qed.

Lemma iter_files_with_size_trace w source excludes :
  Forall (scan_effect_at excludes (w_resolved w))
    (iter_files_with_size w source excludes).1.
Proof. apply walk_trace. Qed.

Lemma rel_of_at_root w rel : rel_of w (at_root (w_resolved w) rel) = rel.
Proof. unfold rel_of, at_root; cbn. by rewrite drop_app_length. Qed.

Lemma fs_lookup_at_root w rel :
  fs_lookup w (at_root (w_resolved w) rel) = lookup_rel (Dir (w_listing w)) rel.
Proof.
  unfold fs_lookup. rewrite rel_of_at_root. cbn [at_root anchor parts].
  rewrite take_app_length, !bool_decide_eq_true_2 by done. done.
Qed.

Lemma scan_files_elem w excludes p :
  p ∈ scan_files w excludes ↔
  ∃ r, r ∈ scanned w excludes ∧ p = at_root (w_resolved w) r.1.
Proof.
  unfold scan_files. rewrite list_elem_of_In, in_map_iff.
  split; intros (r & H1 & H2); exists r; by rewrite ?list_elem_of_In in *.
Qed.

Lemma scan_files_clean w excludes p :
  p ∈ scan_files w excludes →
  below_excluded excludes (w_resolved w) p = false.
Proof.
  intros (r & Hr & ->)%scan_files_elem.
  apply select_clean in Hr as (ds & nm & Hds & Hex).
  unfold below_excluded. fold (rel_of w (at_root (w_resolved w) r.1)).
  by rewrite rel_of_at_root, Hds, removelast_last.
Qed.

Lemma scan_files_stat w excludes r :
  wf_node (Dir (w_listing w)) = true →
  r ∈ scanned w excludes →
  stat_size_at w (at_root (w_resolved w) r.1) = Some r.2
  ∧ ∃ f, fs_lookup w (at_root (w_resolved w) r.1) = Some (Leaf f)
         ∧ st_size f = Some r.2.
Proof.
  intros Hwf Hr. destruct (select_lookup _ _ Hwf _ Hr) as (f & Hl & Hst & _).
  unfold stat_size_at. rewrite fs_lookup_at_root, Hl. eauto.
Qed.

(** The total is the sum of the sizes [stat] reported for the kept files. *)
Lemma scan_total_sum w excludes :
  wf_node (Dir (w_listing w)) = true →
  scan_total w excludes
  = sum_sizes (map (fun p => default 0 (stat_size_at w p)) (scan_files w excludes)).
Proof.
  intros Hwf. unfold scan_total, scan_files.
  assert (∀ r, r ∈ scanned w excludes →
               stat_size_at w (at_root (w_resolved w) r.1) = Some r.2) as H
    by (intros r Hr; by destruct (scan_files_stat w excludes r Hwf Hr)).
  induction (scanned w excludes) as [|r l IH]; [done|].
  cbn. unfold sum_sizes in *. cbn. rewrite (H r) by by left. cbn.
  f_equal. apply IH. intros r' Hr'. apply H. by right.
Qed.

(** ** The chunk loop *)

Lemma CHUNK_SIZE_val : CHUNK_SIZE = 8388608.
Proof. reflexivity. Qed.

Lemma enough_copy_chunks size :
  enough (N.to_nat (size / CHUNK_SIZE) + 2) size.
Proof.
  unfold enough. rewrite Nat2N.inj_add, N2Nat.id.
  pose proof (N.div_mod' size CHUNK_SIZE) as Hdm.
  pose proof (N.mod_lt size CHUNK_SIZE) as Hlt.
  rewrite CHUNK_SIZE_val in *. specialize (Hlt ltac:(lia)).
  remember (size / 8388608) as q. remember (size mod 8388608) as r. lia.
Qed.

Lemma enough_step fuel remaining :
  enough (S fuel) remaining → N.min CHUNK_SIZE remaining ≠ 0 →
  enough fuel (remaining - N.min CHUNK_SIZE remaining).
Proof.
  unfold enough. rewrite Nat2N.inj_succ, CHUNK_SIZE_val. lia.
Qed.

Lemma copy_loop_S fuel cb total remaining processed :
  copy_loop (S fuel) cb total remaining processed
  = let chunk := N.min CHUNK_SIZE remaining in
    if chunk =? 0 then mret processed
    else
      tell (EWrite chunk);;
      (if cb then tell (EProgress (processed + chunk) total) else mret tt);;
      copy_loop fuel cb total (remaining - chunk) (processed + chunk).
Proof. reflexivity. Qed.

(** With enough fuel the loop ends by its [break], so that more fuel does
    not change the run. *)
Lemma copy_loop_fuel cb total fuel :
  ∀ fuel' remaining processed,
    enough fuel remaining → enough fuel' remaining →
    copy_loop fuel cb total remaining processed
    = copy_loop fuel' cb total remaining processed.
Proof.
  induction fuel as [|fuel IH]; intros fuel' remaining processed H1 H2.
  { unfold enough in H1. rewrite CHUNK_SIZE_val in H1. cbn in H1. lia. }
  destruct fuel' as [|fuel'].
  { unfold enough in H2. rewrite CHUNK_SIZE_val in H2. cbn in H2. lia. }
  rewrite !copy_loop_S. cbv zeta.
  destruct (N.eqb_spec (N.min CHUNK_SIZE remaining) 0) as [|Hne]; [done|].
  by rewrite (IH fuel') by by apply enough_step.
Qed.

(** The [while True] loop, one iteration unfolded. *)
Lemma copy_chunks_unfold cb total size processed :
  copy_chunks cb total size processed
  = let chunk := N.min CHUNK_SIZE size in
    if chunk =? 0 then mret processed
    else
      tell (EWrite chunk);;
      (if cb then tell (EProgress (processed + chunk) total) else mret tt);;
      copy_chunks cb total (size - chunk) (processed + chunk).
Proof.
  unfold copy_chunks at 1. rewrite Nat.add_succ_r, copy_loop_S. cbv zeta.
  destruct (N.eqb_spec (N.min CHUNK_SIZE size) 0) as [|Hne]; [done|].
  unfold copy_chunks.
  rewrite (copy_loop_fuel cb total (N.to_nat (size / CHUNK_SIZE) + 1)
             (N.to_nat ((size - N.min CHUNK_SIZE size) / CHUNK_SIZE) + 2));
    [done| |apply enough_copy_chunks].
  apply enough_step; [|done].
  rewrite <- Nat.add_succ_r. apply enough_copy_chunks.
Qed.

Lemma last_cons_default (p lo : N) ps : List.last (p :: ps) lo = List.last ps p.
Proof.
  revert p lo. induction ps as [|q ps IH]; intros p lo; [done|].
  change (List.last (p :: q :: ps) lo) with (List.last (q :: ps) lo).
  by rewrite (IH q lo), (IH q p).
Qed.

Lemma last_app_default (lo : N) ps1 ps2 :
  List.last (ps1 ++ ps2) lo = List.last ps2 (List.last ps1 lo).
Proof.
  revert lo. induction ps1 as [|p ps1 IH]; intros lo; [done|].
  rewrite <- app_comm_cons, !last_cons_default. apply IH.
Qed.

Lemma climbs_app lo ps1 ps2 :
  climbs lo ps1 → climbs (List.last ps1 lo) ps2 → climbs lo (ps1 ++ ps2).
Proof.
  revert lo. induction ps1 as [|p ps1 IH]; intros lo H1 H2; [done|].
  destruct H1 as [Hle H1]. rewrite last_cons_default in H2.
  split; [done|]. by apply IH.
Qed.

Lemma climbs_last lo ps : climbs lo ps → lo ≤ List.last ps lo.
Proof.
  revert lo. induction ps as [|p ps IH]; intros lo H; [cbn; lia|].
  destruct H as [Hle H]. rewrite last_cons_default. specialize (IH _ H). lia.
Qed.

Lemma climbs_nondecreasing lo ps : climbs lo ps → nondecreasing ps.
Proof.
  revert lo. induction ps as [|p ps IH]; intros lo H i a b Ha Hb; [done|].
  destruct H as [_ H]. destruct i as [|i].
  - cbn in Ha. simplify_eq. destruct ps as [|q ps]; [done|].
    cbn in Hb. simplify_eq. by destruct H.
  - by apply (IH _ H i).
Qed.

Lemma progress_events_app t1 t2 :
  progress_events (t1 ++ t2) = progress_events t1 ++ progress_events t2.
Proof. apply omap_app. Qed.

Lemma copy_loop_spec cb total fuel :
  ∀ remaining processed,
    enough fuel remaining →
    let r := copy_loop fuel cb total remaining processed in
    r.2 = inr (processed + remaining)
    ∧ Forall (copy_effect total) r.1
    ∧ climbs processed (progress_events r.1).*1
    ∧ List.last (progress_events r.1).*1 processed ≤ processed + remaining
    ∧ (cb = true →
       List.last (progress_events r.1).*1 processed = processed + remaining).
Proof.
  induction fuel as [|fuel IH]; intros remaining processed Hen.
  { unfold enough in Hen. rewrite CHUNK_SIZE_val in Hen. cbn in Hen. lia. }
  cbv zeta. rewrite copy_loop_S. cbv zeta.
  destruct (N.eqb_spec (N.min CHUNK_SIZE remaining) 0) as [Hz|Hne].
  { assert (remaining = 0) as -> by (rewrite CHUNK_SIZE_val in Hz; lia).
    cbn. rewrite N.add_0_r. repeat split; [constructor|lia]. }
  set (chunk := N.min CHUNK_SIZE remaining) in *.
  destruct (IH (remaining - chunk) (processed + chunk) (enough_step _ _ Hen Hne))
    as (Hr & Ht & Hc & Hu & Hl).
  destruct (copy_loop fuel cb total (remaining - chunk) (processed + chunk))
    as [t r]; cbn [fst snd] in *; subst r.
  assert (processed + chunk + (remaining - chunk) = processed + remaining) as Heq
    by (subst chunk; lia).
  unfold tell. destruct cb; unfold tell; rewrite ?bind_inr; cbn [fst snd app].
  - change (progress_events (EWrite chunk :: EProgress (processed + chunk) total :: t))
      with ((processed + chunk, total) :: progress_events t).
    rewrite fmap_cons. cbn [fst climbs]. rewrite last_cons_default, Heq.
    rewrite Heq in Hu.
    repeat split; [by repeat constructor|lia|done|done|].
    intros _. by rewrite Hl.
  - change (mret ()) with (([], inr ()) : M ()). rewrite bind_inr. cbn [fst snd app].
    change (progress_events (EWrite chunk :: t)) with (progress_events t).
    rewrite Heq. rewrite Heq in Hu.
    assert (climbs processed (progress_events t).*1) as Hc'.
    { clear -Hc. destruct (progress_events t).*1 as [|q qs]; [done|].
      destruct Hc as [Hle Hc]. split; [lia|done]. }
    repeat split; [by repeat constructor|done| |done].
    clear -Hu. destruct (progress_events t).*1 as [|q qs]; [cbn; lia|].
    by rewrite last_cons_default in *.
Qed.

Lemma copy_chunks_spec cb total size processed :
  let r := copy_chunks cb total size processed in
  r.2 = inr (processed + size)
  ∧ Forall (copy_effect total) r.1
  ∧ climbs processed (progress_events r.1).*1
  ∧ List.last (progress_events r.1).*1 processed ≤ processed + size
  ∧ (cb = true → List.last (progress_events r.1).*1 processed = processed + size).
Proof. apply copy_loop_spec, enough_copy_chunks. Qed.

Lemma climbs_weaken lo lo' ps : lo' ≤ lo → climbs lo ps → climbs lo' ps.
Proof. destruct ps as [|p ps]; [done|]. intros Hle [H1 H2]. split; [lia|done]. Qed.

(** ** The write pass *)

Lemma open_rb_content w p :
  open_rb w p = match content_at w p with
                | Some n => ([EOpenRead p], inr n)
                | None => ([], inl (OSError p))
                end.
Proof.
  unfold open_rb, content_at.
  destruct (fs_lookup w p) as [[f|cs|]|]; [destruct (content f)|..]; done.
Qed.

Lemma write_file_ok w source zf cb total processed fpath processed' :
  (write_file w source zf cb total processed fpath).2 = inr processed' →
  ∃ nm sz,
    arcname (w_flavour w) source fpath = Some nm
    ∧ content_at w fpath = Some sz
    ∧ processed' = processed + sz
    ∧ (write_file w source zf cb total processed fpath).1
      = EOpenRead fpath
        :: EZipEntry nm (zf_compression zf) (zf_compresslevel zf)
        :: (copy_chunks cb total sz processed).1.
Proof.
  unfold write_file. destruct (arcname (w_flavour w) source fpath) as [nm|]; [|done].
  rewrite open_rb_content. destruct (content_at w fpath) as [sz|]; [|done].
  rewrite bind_inr. unfold zf_open, tell. rewrite bind_inr. cbn [fst snd app].
  destruct (copy_chunks_spec cb total sz processed) as (Hr & _).
  rewrite Hr. intros [= <-]. by exists nm, sz.
Qed.

Lemma write_file_error w source zf cb total processed fpath e :
  (write_file w source zf cb total processed fpath).2 = inl e →
  e ≠ empty_source_error.
Proof.
  unfold write_file. destruct (arcname (w_flavour w) source fpath) as [nm|].
  - rewrite open_rb_content. destruct (content_at w fpath) as [sz|].
    + rewrite bind_inr. unfold zf_open, tell. rewrite bind_inr. cbn [fst snd].
      destruct (copy_chunks_spec cb total sz processed) as (Hr & _).
      by rewrite Hr.
    + cbn. by intros [= <-].
  - cbn. by intros [= <-].
Qed.

Lemma write_file_trace w source c l cb total processed files fpath :
  fpath ∈ files →
  Forall (write_effect w source c l total files)
    (write_file w source (mkZipFile c l) cb total processed fpath).1.
Proof.
  intros Hin. unfold write_file.
  destruct (arcname (w_flavour w) source fpath) as [nm|] eqn:Hnm; [|constructor].
  rewrite open_rb_content. destruct (content_at w fpath) as [sz|]; [|constructor].
  rewrite bind_inr. unfold zf_open, tell. rewrite bind_inr. cbn [fst snd app].
  constructor; [done|]. constructor; [cbn; eauto|].
  destruct (copy_chunks_spec cb total sz processed) as (_ & Ht & _).
  eapply Forall_impl; [apply Ht|]. by intros [].
Qed.

Lemma write_files_trace w source c l cb total files :
  ∀ processed,
    Forall (write_effect w source c l total files)
      (for_each (write_file w source (mkZipFile c l) cb total) files processed).1.
Proof.
  apply for_each_trace_Forall. intros acc x Hx. by apply write_file_trace.
Qed.

Lemma write_files_error w source zf cb total files :
  ∀ processed e,
    (for_each (write_file w source zf cb total) files processed).2 = inl e →
    e ≠ empty_source_error.
Proof.
  induction files as [|f files IH]; intros processed e; cbn [for_each]; [done|].
  destruct (write_file w source zf cb total processed f) as [t [e'|a]] eqn:Hw.
  - rewrite bind_inl. cbn. intros [= <-].
    eapply write_file_error. by rewrite Hw.
  - rewrite bind_inr. cbn [snd]. apply IH.
Qed.

(** A write pass that succeeds: the counter ends at the number of bytes
    read, and the reported values climb to it. *)
Lemma write_files_ok w source zf cb total files :
  ∀ processed processed',
    (for_each (write_file w source zf cb total) files processed).2
    = inr processed' →
    let t := (for_each (write_file w source zf cb total) files processed).1 in
    processed'
    = processed + sum_sizes (map (fun p => default 0 (content_at w p)) files)
    ∧ climbs processed (progress_events t).*1
    ∧ List.last (progress_events t).*1 processed ≤ processed'
    ∧ (cb = true → List.last (progress_events t).*1 processed = processed').
Proof.
  induction files as [|f files IH]; intros processed processed'; cbn [for_each].
  { cbn. intros [= <-]. rewrite N.add_0_r. repeat split; lia. }
  destruct (write_file w source zf cb total processed f) as [t [e'|a]] eqn:Hw;
    [by rewrite bind_inl|].
  rewrite bind_inr. cbn [fst snd]. intros Hrest.
  destruct (write_file_ok w source zf cb total processed f a) as
    (nm & sz & Hnm & Hsz & -> & Ht); [by rewrite Hw|].
  rewrite Hw in Ht; cbn [fst] in Ht. subst t.
  destruct (IH _ _ Hrest) as (-> & Hc & Hu & Hl).
  destruct (copy_chunks_spec cb total sz processed) as (_ & _ & Hc1 & Hu1 & Hl1).
  cbn [map]. rewrite Hsz. cbn [default].
  change (EOpenRead f :: EZipEntry nm (zf_compression zf) (zf_compresslevel zf)
          :: (copy_chunks cb total sz processed).1)
    with ([EOpenRead f; EZipEntry nm (zf_compression zf) (zf_compresslevel zf)]
          ++ (copy_chunks cb total sz processed).1).
  rewrite !progress_events_app. change (progress_events [_; _]) with (@nil (N * N)).
  rewrite app_nil_l, fmap_app, last_app_default.
  set (ps1 := (progress_events (copy_chunks cb total sz processed).1).*1) in *.
  set (ps2 := (progress_events
                 (for_each (write_file w source zf cb total) files
                    (processed + sz)).1).*1) in *.
  assert (climbs (List.last ps1 processed) ps2) as Hc2
    by by apply (climbs_weaken (processed + sz)).
  split; [unfold sum_sizes; cbn; lia|].
  split; [by apply climbs_app|].
  split.
  - destruct ps2 as [|q qs]; [cbn in *; lia|].
    by rewrite last_cons_default in *.
  - intros ->. rewrite Hl1 by done. by apply Hl.
Qed.

(** ** The shape of a run *)

Lemma backup_streaming_unfold w source dest_dir c l excludes cb :
  backup_streaming w source dest_dir c l excludes cb
  = if negb (w_is_dir w) then
      ([], inl (ValueError ("Source is not a directory: "
                            +:+ str (w_flavour w) source)))
    else if negb (w_mkdir_ok w) then ([], inl (OSError dest_dir))
    else
      let ts := (iter_files_with_size w source excludes).1 in
      let total := scan_total w excludes in
      let archive := archive_path_of w source dest_dir in
      if total =? 0 then (EMkdir dest_dir :: ts, inl empty_source_error)
      else if negb (w_zip_ok w) then (EMkdir dest_dir :: ts, inl (OSError archive))
      else
        let wr := write_pass w source c l excludes cb in
        match wr.2 with
        | inl e =>
            (EMkdir dest_dir :: ts ++ EZipCreate archive c l :: wr.1 ++ [EZipClose],
             inl e)
        | inr _ =>
            (EMkdir dest_dir :: ts ++ EZipCreate archive c l :: wr.1
               ++ EZipClose :: (if cb then [EProgress total total] else []),
             inr archive)
        end.
Proof.
  unfold backup_streaming. destruct (w_is_dir w); cbn [negb]; [|done].
  unfold mkdir. destruct (w_mkdir_ok w); cbn [negb]; [|done].
  rewrite bind_tell.
  pose proof (iter_files_with_size_result w source excludes) as Hr.
  destruct (iter_files_with_size w source excludes) as [ts r].
  cbn [fst snd] in *. subst r. rewrite bind_inr. cbn [fst snd]. cbv zeta.
  destruct (scan_total w excludes =? 0); [by cbn; rewrite app_nil_r|].
  unfold with_ZipFile. destruct (w_zip_ok w); cbn [negb];
    [|by cbn; rewrite app_nil_r].
  assert (match l with Some l0 => Some l0 | None => None end = l) as ->
    by by destruct l.
  fold (write_pass w source c l excludes cb).
  fold (archive_path_of w source dest_dir).
  rewrite bind_tell. cbn [fst snd].
  destruct (write_pass w source c l excludes cb) as [tw [e|a]]; cbn [fst snd].
  - rewrite bind_inl. cbn [fst snd]. done.
  - rewrite bind_inr. destruct cb.
    + rewrite bind_tell. cbn [fst snd mret M_ret app].
      by rewrite <- (app_assoc tw).
    + rewrite !bind_mret. cbn [fst snd mret M_ret app]. by rewrite app_nil_r.
Qed.

Lemma scan_effects_no_archive excludes base t :
  Forall (scan_effect_at excludes base) t → creates_archive t = false.
Proof.
  induction 1 as [|e t He _ IH]; [done|].
  unfold creates_archive in *. cbn [existsb]. rewrite IH.
  destruct e; cbn in He; done.
Qed.

Lemma scan_effects_no_progress excludes base t :
  Forall (scan_effect_at excludes base) t → progress_events t = [].
Proof.
  induction 1 as [|e t He _ IH]; [done|].
  destruct e; cbn in *; try done.
Qed.

(** A scan total of 0 ends the run right after the scan. *)
Lemma zero_total_run w source dest_dir c l excludes cb :
  w_is_dir w = true →
  w_mkdir_ok w = true →
  scan_total w excludes = 0 →
  backup_streaming w source dest_dir c l excludes cb
  = (EMkdir dest_dir :: (iter_files_with_size w source excludes).1,
     inl empty_source_error).
Proof.
  intros Hdir Hmk Htot.
  by rewrite backup_streaming_unfold, Hdir, Hmk, Htot.
Qed.

Lemma scan_creates_no_archive w source excludes dest_dir :
  creates_archive (EMkdir dest_dir :: (iter_files_with_size w source excludes).1)
  = false.
Proof.
  change (creates_archive (iter_files_with_size w source excludes).1 = false).
  eapply scan_effects_no_archive, iter_files_with_size_trace.
Qed.

(** Every effect of a run is one the program is meant to perform. *)
Lemma run_trace w source dest_dir c l excludes cb :
  Forall (run_effect w source dest_dir c l excludes)
    (backup_streaming w source dest_dir c l excludes cb).1.
Proof.
  assert (Forall (run_effect w source dest_dir c l excludes)
            (iter_files_with_size w source excludes).1) as Hscan.
  { eapply Forall_impl; [apply iter_files_with_size_trace|]. by intros []. }
  assert (Forall (run_effect w source dest_dir c l excludes)
            (write_pass w source c l excludes cb).1) as Hwrite.
  { eapply Forall_impl; [apply write_files_trace|]. by intros []. }
  rewrite backup_streaming_unfold.
  destruct (w_is_dir w); cbn [negb]; [|constructor].
  destruct (w_mkdir_ok w); cbn [negb]; [|constructor].
  cbv zeta. destruct (scan_total w excludes =? 0); [by constructor|].
  destruct (w_zip_ok w); cbn [negb]; [|by constructor].
  destruct (write_pass w source c l excludes cb).2; cbn [fst].
  - constructor; [done|]. apply Forall_app; split; [done|].
    constructor; [done|]. apply Forall_app; split; [done|]. by constructor.
  - constructor; [done|]. apply Forall_app; split; [done|].
    constructor; [done|]. apply Forall_app; split; [done|].
    constructor; [done|]. destruct cb; by repeat constructor.
Qed.

Lemma run_trace_elem w source dest_dir c l excludes cb e :
  e ∈ (backup_streaming w source dest_dir c l excludes cb).1 →
  run_effect w source dest_dir c l excludes e.
Proof.
  intros He. pose proof (run_trace w source dest_dir c l excludes cb) as H.
  rewrite Forall_forall in H. by apply H.
Qed.

Lemma scan_effect_clean w excludes e :
  scan_effect_at excludes (w_resolved w) e →
  touches_excluded excludes (w_resolved w) e = false.
Proof.
  destruct e; cbn [scan_effect_at touches_excluded]; try done.
  - intros (rel & -> & Hrel). unfold inside_excluded.
    fold (rel_of w (at_root (w_resolved w) rel)). by rewrite rel_of_at_root.
  - intros (rel & nm & -> & Hrel). unfold below_excluded.
    fold (rel_of w (at_root (w_resolved w) (rel ++ [nm]))).
    by rewrite rel_of_at_root, removelast_last.
  - intros (rel & nm & -> & Hrel). unfold below_excluded.
    fold (rel_of w (at_root (w_resolved w) (rel ++ [nm]))).
    by rewrite rel_of_at_root, removelast_last.
Qed.

Lemma run_effect_clean w source dest_dir c l excludes e :
  run_effect w source dest_dir c l excludes e →
  touches_excluded excludes (w_resolved w) e = false.
Proof.
  destruct e; try done; try apply scan_effect_clean.
  cbn. apply scan_files_clean.
Qed.



Lemma omap_keep_statable_cons e cs :
  omap (keep_statable statable_only) (e :: cs)
  = match keep_statable statable_only e with Some e' => [e'] | None => [] end
    ++ omap (keep_statable statable_only) cs.
Proof.
  change (e :: cs) with ([e] ++ cs). by rewrite omap_app.
Qed.

Lemma selected_fnames_statable cs :
  selected (fnames (omap (keep_statable statable_only) cs))
  = selected (fnames cs).
Proof.
  induction cs as [|[d c] cs IH]; [done|].
  change ((d, c) :: cs) with ([(d, c)] ++ cs).
  unfold selected, fnames in *. rewrite !omap_app, IH. f_equal.
  by destruct c as [[[sz|] [] cc]|cs'|].
Qed.

(** Dropping the entries [stat] fails on does not change what is kept. *)
Lemma select_statable_only excludes n :
  select excludes (statable_only n) = select excludes n.
Proof.
  induction n as [f|cs IH|] using node_ind'; [done| |done].
  cbn [statable_only select]. rewrite selected_fnames_statable. f_equal.
  induction IH as [|[d c] cs Hc _ IHcs]; [done|].
  rewrite omap_keep_statable_cons. cbn [snd] in Hc. cbn [flat_map].
  rewrite <- IHcs. clear IHcs.
  destruct c as [f|cs'|]; unfold keep_statable; cbn [fst snd].
  - destruct (st_size f); cbn [app flat_map]; [|done]. done.
  - cbn [app flat_map]. f_equal.
    unfold select_entry, entered. cbn [fst snd is_dir_entry]. by rewrite Hc.
  - done.
Qed.

(** ** The progress events of a successful run *)

Lemma climbs_all_le_last lo ps :
  climbs lo ps → Forall (fun p => p ≤ List.last ps lo) ps.
Proof.
  revert lo. induction ps as [|p ps IH]; intros lo H; [constructor|].
  destruct H as [_ H]. rewrite last_cons_default. constructor.
  - by apply climbs_last.
  - by apply IH.
Qed.

Lemma write_effects_progress w source c l total files t :
  Forall (write_effect w source c l total files) t →
  Forall (fun ev => ev.2 = total) (progress_events t).
Proof.
  induction 1 as [|e t He _ IH]; [constructor|].
  destruct e; cbn in *; try done. by constructor.
Qed.

(** The success of a run, taken apart. *)
Lemma run_success w source dest_dir c l excludes cb archive :
  (backup_streaming w source dest_dir c l excludes cb).2 = inr archive →
  scan_total w excludes ≠ 0
  ∧ ∃ processed,
      (write_pass w source c l excludes cb).2 = inr processed
      ∧ progress_events (backup_streaming w source dest_dir c l excludes cb).1
        = progress_events (write_pass w source c l excludes cb).1
          ++ (if cb then [(scan_total w excludes, scan_total w excludes)]
              else []).
Proof.
  rewrite backup_streaming_unfold.
  destruct (w_is_dir w); cbn [negb]; [|done].
  destruct (w_mkdir_ok w); cbn [negb]; [|done]. cbv zeta.
  destruct (N.eqb_spec (scan_total w excludes) 0) as [|Hne]; [done|].
  destruct (w_zip_ok w); cbn [negb]; [|done].
  destruct (write_pass w source c l excludes cb) as [tw [e|a]]; cbn [fst snd];
    [done|].
  intros _. split; [done|]. exists a. split; [done|].
  change (EMkdir dest_dir :: ?t) with ([EMkdir dest_dir] ++ t).
  rewrite !progress_events_app.
  rewrite (scan_effects_no_progress _ _ _
             (iter_files_with_size_trace w source excludes)).
  change (EZipCreate ?a ?b ?d :: ?t) with ([EZipCreate a b d] ++ t).
  rewrite !progress_events_app. cbn [app].
  change (progress_events [EMkdir dest_dir]) with (@nil (N * N)).
  change (progress_events [EZipCreate (archive_path_of w source dest_dir) c l])
    with (@nil (N * N)).
  cbn [app]. f_equal. by destruct cb.
Qed.

(** When every kept file delivers as many bytes as [stat] reported, the
    bytes read add up to the scan total. *)
Lemma steady_content_sum w excludes :
  wf_node (Dir (w_listing w)) = true →
  (∀ p, p ∈ scan_files w excludes → content_at w p = stat_size_at w p) →
  sum_sizes (map (fun p => default 0 (content_at w p)) (scan_files w excludes))
  = scan_total w excludes.
Proof.
  intros Hwf Hsteady. rewrite scan_total_sum by done.
  induction (scan_files w excludes) as [|p ps IH]; [done|].
  unfold sum_sizes in *. cbn. rewrite (Hsteady p) by by left.
  f_equal. apply IH. intros q Hq. apply Hsteady. by right.
Qed.

Lemma progress_of_steady_run w source dest_dir c l excludes archive :
  wf_node (Dir (w_listing w)) = true →
  (∀ p, p ∈ scan_files w excludes → content_at w p = stat_size_at w p) →
  (backup_streaming w source dest_dir c l excludes true).2 = inr archive →
  let evs := progress_events
               (backup_streaming w source dest_dir c l excludes true).1 in
  let total := scan_total w excludes in
  nondecreasing evs.*1
  ∧ Forall (fun ev => ev.1 ≤ total ∧ ev.2 = total) evs
  ∧ ∃ pre, evs = pre ++ [(total, total); (total, total)].
Proof.
  intros Hwf Hsteady Hok. cbv zeta.
  destruct (run_success _ _ _ _ _ _ _ _ Hok) as (Hne & processed & Hw & ->).
  unfold write_pass in *.
  destruct (write_files_ok _ _ _ _ _ _ _ _ Hw) as (Hp & Hc & _ & Hl).
  specialize (Hl eq_refl). cbv zeta in *.
  rewrite steady_content_sum, N.add_0_l in Hp by done. subst processed.
  pose proof (write_effects_progress _ _ _ _ _ _ _
                (write_files_trace w source c l true (scan_total w excludes)
                   (scan_files w excludes) 0)) as Htot.
  set (evs := progress_events _) in *.
  set (total := scan_total w excludes) in *.
  assert (evs ≠ []) as Hnil by (intros Heq; rewrite Heq in Hl; by cbn in Hl).
  destruct (exists_last Hnil) as (pre & [a b] & Hevs).
  assert (a = total ∧ b = total) as [-> ->].
  { rewrite Hevs in Hl, Htot. rewrite fmap_app, last_app_default in Hl.
    apply Forall_app in Htot as [_ Htot]. by inversion Htot. }
  assert (climbs 0 (evs.*1 ++ [total])) as Hclimb.
  { apply climbs_app; [done|]. rewrite Hl. cbn. lia. }
  repeat split.
  - rewrite fmap_app. by apply (climbs_nondecreasing 0).
  - apply Forall_app. split; [|by repeat constructor].
    pose proof (climbs_all_le_last _ _ Hc) as Hle. rewrite Hl in Hle.
    clear -Hle Htot. induction evs as [|ev evs IH]; [constructor|].
    cbn in Hle. inversion Hle; inversion Htot; subst. constructor; [done|].
    by apply IH.
  - exists pre. by rewrite Hevs, <- app_assoc.
Qed.

(** ** Entry names *)

Lemma replace_backslash_app s1 s2 :
  replace_backslash (s1 +:+ s2) = replace_backslash s1 +:+ replace_backslash s2.
Proof.
  induction s1 as [|c s1 IH]; [done|].
  change (String c s1 +:+ s2) with (String c (s1 +:+ s2)).
  cbn [replace_backslash]. by rewrite IH.
Qed.

Lemma replace_backslash_id s :
  no_backslash s = true → replace_backslash s = s.
Proof.
  induction s as [|c s IH]; cbn; [done|].
  intros [Hc Hs]%andb_prop. destruct (Ascii.eqb c "\"); [done|].
  by rewrite IH.
Qed.

Lemma replace_backslash_sep fl : replace_backslash (sep fl) = "/".
Proof. by destruct fl. Qed.

Lemma replace_backslash_concat fl l :
  forallb no_backslash l = true →
  replace_backslash (String.concat (sep fl) l) = String.concat "/" l.
Proof.
  induction l as [|x l IH]; [done|]. cbn [forallb].
  intros [Hx Hl]%andb_prop. destruct l as [|y l].
  - cbn. by apply replace_backslash_id.
  - change (String.concat (sep fl) (x :: y :: l))
      with (x +:+ sep fl +:+ String.concat (sep fl) (y :: l)).
    change (String.concat "/" (x :: y :: l))
      with (x +:+ "/" +:+ String.concat "/" (y :: l)).
    rewrite !replace_backslash_app, replace_backslash_sep, IH by done.
    by rewrite replace_backslash_id.
Qed.

Lemma relative_to_at_root root rel :
  relative_to (at_root root rel) root = Some (mkPath "" rel).
Proof.
  unfold relative_to, at_root. cbn [anchor parts].
  by rewrite take_app_length, drop_app_length, !bool_decide_eq_true_2.
Qed.

(** The entry name of a file below a source given in resolved form. *)
Lemma arcname_at_root fl source rel :
  rel ≠ [] →
  forallb no_backslash (base_parts source ++ rel) = true →
  arcname fl source (at_root source rel)
  = Some (String.concat "/" (base_parts source ++ rel)).
Proof.
  intros Hrel Hnb. unfold arcname. rewrite relative_to_at_root.
  unfold joinpath, of_name. cbn [anchor parts].
  rewrite bool_decide_eq_true_2 by done. fold (base_parts source).
  unfold str. cbn [anchor parts]. rewrite bool_decide_eq_true_2 by done.
  rewrite bool_decide_eq_false_2.
  - cbn [andb]. f_equal. by apply replace_backslash_concat.
  - intros [_ ?]%app_eq_nil. done.
Qed.

(** ** The walk and the pruned [dirs] list *)

(** [descend] visits exactly the entries of the pruned list
    [[d for d in dirs if d not in excludes]], in order. *)
Lemma descend_pruned_dirs walk excludes base cs acc :
  descend walk excludes base cs acc
  = for_each (fun acc e => walk (base // e.1) e.2 acc)
      (filter (fun e => e.1 ∉ excludes) (dirs cs)) acc.
Proof.
  revert acc. unfold dirs.
  induction cs as [|e cs IH]; intros acc; [done|].
  cbn [descend]. fold (descend walk excludes base). unfold entered.
  rewrite filter_cons. destruct (decide (is_dir_entry e.2 = true)) as [Hd|Hd].
  - rewrite Hd, filter_cons. cbn [andb].
    destruct (decide (e.1 ∉ excludes)) as [Hin|Hin].
    + rewrite bool_decide_eq_true_2 by done.
      cbn [for_each]. apply bind_ext. intros acc'. apply IH.
    + rewrite bool_decide_eq_false_2 by done. apply IH.
  - apply not_true_is_false in Hd. rewrite Hd. cbn [andb]. apply IH.
Qed.

(** * The claims *)

(** ** Failing before the archive is opened *)

(** C6. When the source path is missing or is not a directory, the run
    raises the invalid-source [ValueError] and has performed no effect at
    all: no destination directory was created, nothing was scanned, no
    archive file was created. *)
Theorem C6_invalid_source_fails_before_any_work
    w source dest_dir c l excludes cb :
  w_is_dir w = false →
  backup_streaming w source dest_dir c l excludes cb
  = ([], inl (ValueError ("Source is not a directory: "
                          +:+ str (w_flavour w) source))).
Proof. intros H. rewrite backup_streaming_unfold, H. done. Qed.

Lemma C6_witness :
  w_is_dir missing_world = false
  ∧ backup_streaming missing_world proj_path backups_path ZIP_STORED None
      DEFAULT_EXCLUDES true
    = ([], inl (ValueError "Source is not a directory: /home/u/proj")).
Proof.
  split; [reflexivity|].
  apply (C6_invalid_source_fails_before_any_work missing_world proj_path
           backups_path ZIP_STORED None DEFAULT_EXCLUDES true).
  reflexivity.
Defined.

(** C5. When the scan of the source directory yields a total of 0 bytes,
    the run raises the empty-source [ValueError] and no archive file is
    created. The scan is reached once the source is a directory and the
    destination directory could be made. *)
Theorem C5_zero_total_is_empty_source
    w source dest_dir c l excludes cb files :
  w_is_dir w = true →
  w_mkdir_ok w = true →
  (iter_files_with_size w source excludes).2 = inr (files, 0) →
  let run := backup_streaming w source dest_dir c l excludes cb in
  run.2 = inl (ValueError "No files to back up")
  ∧ creates_archive run.1 = false.
Proof.
  intros Hdir Hmk Hscan. rewrite iter_files_with_size_result in Hscan.
  injection Hscan as _ Htot. cbv zeta.
  rewrite zero_total_run by done. cbn [fst snd].
  split; [done|apply scan_creates_no_archive].
Qed.

Lemma C5_witness :
  w_is_dir all_excluded_world = true
  ∧ w_mkdir_ok all_excluded_world = true
  ∧ (iter_files_with_size all_excluded_world proj_path git_only).2 = inr ([], 0)
  ∧ let run := backup_streaming all_excluded_world proj_path backups_path
                 ZIP_STORED None git_only true in
    run.2 = inl (ValueError "No files to back up")
    ∧ creates_archive run.1 = false.
Proof.
  split; [reflexivity|]. split; [reflexivity|]. split; [vm_compute; reflexivity|].
  apply (C5_zero_total_is_empty_source all_excluded_world proj_path
           backups_path ZIP_STORED None git_only true []);
    vm_compute; reflexivity.
Defined.

(** C9. A scan that keeps files, all of them 0 bytes long, still makes the
    run raise the empty-source [ValueError] without creating an archive:
    the test is on the byte total, not on the list of files. *)
Theorem C9_only_empty_files_is_empty_source
    w source dest_dir c l excludes cb files total :
  w_is_dir w = true →
  w_mkdir_ok w = true →
  wf_node (Dir (w_listing w)) = true →
  (iter_files_with_size w source excludes).2 = inr (files, total) →
  files ≠ [] →
  (∀ p, p ∈ files → stat_size_at w p = Some 0) →
  let run := backup_streaming w source dest_dir c l excludes cb in
  run.2 = inl (ValueError "No files to back up")
  ∧ creates_archive run.1 = false.
Proof.
  intros Hdir Hmk Hwf Hscan _ Hzero. cbv zeta.
  rewrite iter_files_with_size_result in Hscan. injection Hscan as <- <-.
  assert (scan_total w excludes = 0) as Htot.
  { rewrite scan_total_sum by done.
    induction (scan_files w excludes) as [|p ps IH]; [done|].
    cbn. rewrite (Hzero p) by by left. cbn. unfold sum_sizes in IH.
    rewrite IH; [done|]. intros q Hq. apply Hzero. by right. }
  rewrite zero_total_run by done. cbn [fst snd].
  split; [done|apply scan_creates_no_archive].
Qed.

Lemma C9_witness :
  let w := empty_files_world in
  let files := [mkPath "/" ["home"; "u"; "proj"; "empty.txt"];
                mkPath "/" ["home"; "u"; "proj"; "sub"; "also_empty"]] in
  (iter_files_with_size w proj_path DEFAULT_EXCLUDES).2 = inr (files, 0)
  ∧ files ≠ []
  ∧ let run := backup_streaming w proj_path backups_path ZIP_STORED None
                 DEFAULT_EXCLUDES true in
    run.2 = inl (ValueError "No files to back up")
    ∧ creates_archive run.1 = false.
Proof.
  cbv zeta. split; [vm_compute; reflexivity|]. split; [discriminate|].
  apply (C9_only_empty_files_is_empty_source empty_files_world proj_path
           backups_path ZIP_STORED None DEFAULT_EXCLUDES true
           [mkPath "/" ["home"; "u"; "proj"; "empty.txt"];
            mkPath "/" ["home"; "u"; "proj"; "sub"; "also_empty"]] 0).
  - reflexivity.
  - reflexivity.
  - vm_compute; reflexivity.
  - vm_compute; reflexivity.
  - discriminate.
  - intros p Hp.
    apply elem_of_cons in Hp as [->|Hp]; [vm_compute; reflexivity|].
    apply elem_of_cons in Hp as [->|Hp]; [vm_compute; reflexivity|].
    by apply elem_of_nil in Hp.
Defined.

(** C10. The destination directory is made after the source was validated
    and before the scan starts: a run on an invalid source has no effect,
    and the trace of any other run is empty (the directory could not be
    made) or starts with the making of the directory, followed by the
    effects of the scan. So a run that ends in the empty-source
    [ValueError] has validated the source, has made the destination
    directory, has scanned, and has done nothing else: the directory is
    there although no archive file was created. *)
Theorem C10_destination_made_before_scan
    w source dest_dir c l excludes cb :
  let run := backup_streaming w source dest_dir c l excludes cb in
  let scan := iter_files_with_size w source excludes in
  (w_is_dir w = false → run.1 = [])
  ∧ (run.1 = [] ∨ ∃ rest, run.1 = EMkdir dest_dir :: scan.1 ++ rest)
  ∧ (run.2 = inl (ValueError "No files to back up") →
     w_is_dir w = true
     ∧ run.1 = EMkdir dest_dir :: scan.1
     ∧ creates_archive run.1 = false).
Proof.
  cbv zeta. rewrite backup_streaming_unfold. split; [by intros ->|].
  destruct (w_is_dir w); cbn [negb]; [|split; [by left|by cbn; intros [=]]].
  destruct (w_mkdir_ok w); cbn [negb]; [|split; [by left|by cbn; intros [=]]].
  cbv zeta. destruct (scan_total w excludes =? 0).
  { cbn [fst snd]. split; [right; exists []; by rewrite app_nil_r|].
    intros _. repeat split. apply scan_creates_no_archive. }
  destruct (w_zip_ok w); cbn [negb].
  2:{ cbn [fst snd]. split; [right; exists []; by rewrite app_nil_r|done]. }
  destruct (write_pass w source c l excludes cb) as [tw [e|a]] eqn:Hw;
    cbn [fst snd].
  - split; [right; by eexists|]. intros [= ->]. exfalso.
    eapply (write_files_error w source _ cb _ _ 0 empty_source_error); [|done].
    unfold write_pass in Hw. by rewrite Hw.
  - split; [right; by eexists|done].
Qed.

Lemma C10_witness :
  let run := backup_streaming all_excluded_world proj_path backups_path
               ZIP_STORED None git_only true in
  run.2 = inl (ValueError "No files to back up")
  ∧ w_is_dir all_excluded_world = true
  ∧ run.1 = [EMkdir backups_path; EScandir proj_path]
  ∧ creates_archive run.1 = false.
Proof.
  cbv zeta. split; [vm_compute; reflexivity|].
  destruct (C10_destination_made_before_scan all_excluded_world proj_path
              backups_path ZIP_STORED None git_only true) as (_ & _ & Hrun).
  apply Hrun. vm_compute; reflexivity.
Defined.

(** ** Compression *)

(** C7. The compression chosen at the start holds for the whole run:
    ["store"] gives uncompressed storage with level [None] whatever level
    was supplied, ["deflate"] gives deflate at the supplied level, level 1
    when none was supplied; and the archive and every entry of a run are
    written with the method and level [backup_streaming] was called with. *)
Theorem C7_compression_fixed_for_the_run :
  (∀ level, compression_from_args "store" level = inr (ZIP_STORED, None))
  ∧ (∀ lv, compression_from_args "deflate" (Some lv)
           = inr (ZIP_DEFLATED, Some lv))
  ∧ compression_from_args "deflate" None = inr (ZIP_DEFLATED, Some 1%Z)
  ∧ (∀ w source dest_dir c l excludes cb e cl,
       e ∈ (backup_streaming w source dest_dir c l excludes cb).1 →
       written_with e = Some cl → cl = (c, l)).
Proof.
  repeat split; [done..|].
  intros w source dest_dir c l excludes cb e cl He Hcl.
  apply run_trace_elem in He.
  destruct e; cbn in Hcl; simplify_eq.
  - by destruct He as (_ & -> & ->).
  - by destruct He as (-> & -> & _).
Qed.

Lemma C7_witness :
  let run := backup_streaming proj_world proj_path backups_path
               ZIP_DEFLATED (Some 9%Z) git_only true in
  EZipEntry "proj/sub/b.txt" ZIP_DEFLATED (Some 9%Z) ∈ run.1
  ∧ (ZIP_DEFLATED, Some 9%Z) = (ZIP_DEFLATED, Some 9%Z).
Proof.
  assert (EZipEntry "proj/sub/b.txt" ZIP_DEFLATED (Some 9%Z)
          ∈ (backup_streaming proj_world proj_path backups_path
               ZIP_DEFLATED (Some 9%Z) git_only true).1) as Hin.
  { apply list_elem_of_In. vm_compute. do 13 right. by left. }
  split; [exact Hin|].
  destruct C7_compression_fixed_for_the_run as (_ & _ & _ & Hrun).
  exact (Hrun proj_world proj_path backups_path ZIP_DEFLATED (Some 9%Z)
           git_only true _ _ Hin eq_refl).
Defined.

(** ** The scan and the progress total *)

(** C1. Whatever the tree and the exclusion set: no file the scan returns
    lies under a directory, below the root, whose name is excluded; the
    scan lists no such directory and queries nothing inside one (they are
    pruned before [os.walk] enters them); the run opens no such file; and
    every entry of the archive is the entry of a file the scan returned. *)
Theorem C1_excluded_directories_are_pruned
    w source dest_dir c l excludes cb :
  let scan := iter_files_with_size w source excludes in
  let run := backup_streaming w source dest_dir c l excludes cb in
  (∃ files total,
     scan.2 = inr (files, total)
     ∧ ∀ p, p ∈ files → below_excluded excludes (w_resolved w) p = false)
  ∧ (∀ e, e ∈ scan.1 → touches_excluded excludes (w_resolved w) e = false)
  ∧ (∀ e, e ∈ run.1 → touches_excluded excludes (w_resolved w) e = false)
  ∧ (∀ nm c' l',
       EZipEntry nm c' l' ∈ run.1 →
       ∃ p, p ∈ scan_files w excludes
            ∧ below_excluded excludes (w_resolved w) p = false
            ∧ arcname (w_flavour w) source p = Some nm).
Proof.
  cbv zeta. repeat split.
  - exists (scan_files w excludes), (scan_total w excludes).
    split; [apply iter_files_with_size_result|]. apply scan_files_clean.
  - intros e He. apply scan_effect_clean.
    pose proof (iter_files_with_size_trace w source excludes) as H.
    rewrite Forall_forall in H. by apply H.
  - intros e He. eapply run_effect_clean, run_trace_elem, He.
  - intros nm c' l' He. apply run_trace_elem in He.
    destruct He as (_ & _ & p & Hp & Hnm).
    exists p. split; [done|]. split; [by apply scan_files_clean|done].
Qed.

(** C3. In a run over a tree with unique names per directory, the total
    handed to every invocation of the progress callback is one and the
    same value: the total of the scan, which is the sum of the sizes
    [stat] reported for the files the scan returned. *)
Theorem C3_progress_total_is_scan_sum
    w source dest_dir c l excludes cb :
  wf_node (Dir (w_listing w)) = true →
  ∃ files total,
    (iter_files_with_size w source excludes).2 = inr (files, total)
    ∧ (∀ p, p ∈ files → is_Some (stat_size_at w p))
    ∧ total = sum_sizes (map (fun p => default 0 (stat_size_at w p)) files)
    ∧ ∀ processed t,
        EProgress processed t
          ∈ (backup_streaming w source dest_dir c l excludes cb).1 →
        t = total.
Proof.
  intros Hwf. exists (scan_files w excludes), (scan_total w excludes).
  split; [apply iter_files_with_size_result|]. split; [|split].
  - intros p (r & Hr & ->)%scan_files_elem.
    destruct (scan_files_stat w excludes r Hwf Hr) as [-> _]. by eexists.
  - by apply scan_total_sum.
  - intros processed t He. by apply run_trace_elem in He.
Qed.

Lemma C3_witness :
  wf_node (Dir (w_listing proj_world)) = true
  ∧ ∃ files total,
      (iter_files_with_size proj_world proj_path git_only).2 = inr (files, total)
      ∧ (∀ p, p ∈ files → is_Some (stat_size_at proj_world p))
      ∧ total = sum_sizes (map (fun p => default 0 (stat_size_at proj_world p)) files)
      ∧ ∀ processed t,
          EProgress processed t
            ∈ (backup_streaming proj_world proj_path backups_path ZIP_STORED
                 None git_only true).1 →
          t = total.
Proof.
  split; [vm_compute; reflexivity|].
  apply (C3_progress_total_is_scan_sum proj_world proj_path backups_path
           ZIP_STORED None git_only true).
  vm_compute; reflexivity.
Defined.

(** C8. A file whose [stat] call fails is skipped: the loop body performs
    that one [stat] call and nothing more (no retry), leaves the file list
    and the total as they were, and the loop goes on; the scan as a whole
    returns the same files and total as on the tree without such files,
    and it never raises. *)
Theorem C8_stat_failures_are_skipped :
  (∀ base acc nm isf c,
     scan_file base acc (nm, mkFile None isf c)
     = ([EStat (base // nm) None], inr acc))
  ∧ (∀ excludes base n acc,
       (walk excludes base n acc).2
       = (walk excludes base (statable_only n) acc).2)
  ∧ (∀ w source excludes,
       ∃ r, (iter_files_with_size w source excludes).2 = inr r).
Proof.
  repeat split.
  - intros excludes base n acc.
    by rewrite !walk_result, select_statable_only.
  - intros w source excludes. eexists. apply iter_files_with_size_result.
Qed.

(** ** Progress events *)

(** C2, as stated, fails on the sample run [proj/{a.txt, .git/x,
    sub/b.txt}]: the run succeeds, no file changes, and the events are
    (5, 15), (15, 15), (15, 15). The event after the last chunk already
    reports the total, and the closing event reports it again. *)
Lemma C2_counterexample :
  let run := backup_streaming proj_world proj_path backups_path ZIP_STORED
               None git_only true in
  run.2 = inr (mkPath "/" ["home"; "u"; "backups"; "proj-20240101-120000.zip"])
  ∧ wf_node (Dir (w_listing proj_world)) = true
  ∧ Forall (fun p => content_at proj_world p = stat_size_at proj_world p)
      (scan_files proj_world git_only)
  ∧ progress_events run.1 = [(5, 15); (15, 15); (15, 15)]
  ∧ times_at_total (progress_events run.1) ≠ 1%nat.
Proof.
  cbv zeta. split; [vm_compute; reflexivity|]. split; [vm_compute; reflexivity|].
  split; [by repeat constructor|].
  split; [vm_compute; reflexivity|]. vm_compute. discriminate.
Qed.

(** C2, amended. In a successful run with a callback over a tree whose kept
    files deliver at write time the bytes [stat] reported, the processed
    values are non-decreasing and never exceed the total, every event
    carries the total, and the run ends with two events that report
    [processed = total]: the one after the last chunk and the closing one. *)
Theorem C2_progress_climbs_to_total
    w source dest_dir c l excludes files total archive :
  wf_node (Dir (w_listing w)) = true →
  (iter_files_with_size w source excludes).2 = inr (files, total) →
  (∀ p, p ∈ files → content_at w p = stat_size_at w p) →
  (backup_streaming w source dest_dir c l excludes true).2 = inr archive →
  let evs := progress_events
               (backup_streaming w source dest_dir c l excludes true).1 in
  nondecreasing evs.*1
  ∧ Forall (fun ev => ev.1 ≤ total ∧ ev.2 = total) evs
  ∧ ∃ pre, evs = pre ++ [(total, total); (total, total)].
Proof.
  intros Hwf Hscan Hsteady Hok.
  rewrite iter_files_with_size_result in Hscan. injection Hscan as <- <-.
  by apply (progress_of_steady_run w source dest_dir c l excludes archive).
Qed.

Lemma C2_witness :
  let run := backup_streaming proj_world proj_path backups_path ZIP_STORED
               None git_only true in
  nondecreasing (progress_events run.1).*1
  ∧ Forall (fun ev => ev.1 ≤ 15 ∧ ev.2 = 15) (progress_events run.1)
  ∧ ∃ pre, progress_events run.1 = pre ++ [(15, 15); (15, 15)].
Proof.
  apply (C2_progress_climbs_to_total proj_world proj_path backups_path
           ZIP_STORED None git_only
           [mkPath "/" ["home"; "u"; "proj"; "a.txt"];
            mkPath "/" ["home"; "u"; "proj"; "sub"; "b.txt"]] 15
           (mkPath "/" ["home"; "u"; "backups"; "proj-20240101-120000.zip"])).
  - vm_compute; reflexivity.
  - vm_compute; reflexivity.
  - intros p Hp.
    apply elem_of_cons in Hp as [->|Hp]; [vm_compute; reflexivity|].
    apply elem_of_cons in Hp as [->|Hp]; [vm_compute; reflexivity|].
    by apply elem_of_nil in Hp.
  - vm_compute; reflexivity.
Defined.

(** ** Entry names *)

(** C4, as stated, fails on two inputs. With the file system root as
    source the base name is empty and the entry of [/etc/hosts] is
    [etc/hosts], not [/etc/hosts]. On a POSIX host a file named [a\b.txt]
    under [proj] gets the entry [proj/a/b.txt], although its relative path
    is the single component [a\b.txt]. *)
Lemma C4_counterexample :
  let hosts := mkPath "/" ["etc"; "hosts"] in
  let ab := mkPath "/" ["home"; "u"; "proj"; "a\b.txt"] in
  ((iter_files_with_size root_world root_path ∅).2 = inr ([hosts], 7)
   ∧ arcname Posix root_path hosts = Some "etc/hosts"
   ∧ claimed_entry_name root_path (rel_of root_world hosts) = "/etc/hosts"
   ∧ arcname Posix root_path hosts
     ≠ Some (claimed_entry_name root_path (rel_of root_world hosts)))
  ∧ ((iter_files_with_size backslash_world proj_path ∅).2 = inr ([ab], 5)
     ∧ arcname Posix proj_path ab = Some "proj/a/b.txt"
     ∧ claimed_entry_name proj_path (rel_of backslash_world ab) = "proj/a\b.txt"
     ∧ arcname Posix proj_path ab
       ≠ Some (claimed_entry_name proj_path (rel_of backslash_world ab))).
Proof.
  cbv zeta. repeat split; try (vm_compute; reflexivity); vm_compute; discriminate.
Qed.

(** C4, amended. Let the source be given in resolved form, and let neither
    its base name nor the components of a scanned file below it hold a
    backslash (on a Windows host no component does). Then the entry name
    of the file is the components of its relative path joined by forward
    slashes, after the base name of the source when that is not empty;
    with a non-empty base name this is base name, slash, relative path. *)
Theorem C4_entry_name_is_base_slash_relative
    w source excludes files total p :
  w_resolved w = source →
  (iter_files_with_size w source excludes).2 = inr (files, total) →
  p ∈ files →
  forallb no_backslash (base_parts source ++ rel_of w p) = true →
  arcname (w_flavour w) source p
  = Some (String.concat "/" (base_parts source ++ rel_of w p))
  ∧ (name source ≠ "" →
     arcname (w_flavour w) source p
     = Some (claimed_entry_name source (rel_of w p))).
Proof.
  intros <- Hscan Hp Hnb.
  rewrite iter_files_with_size_result in Hscan. injection Hscan as <- <-.
  apply scan_files_elem in Hp as (r & Hr & ->).
  rewrite rel_of_at_root in *.
  apply select_clean in Hr as (ds & nm & Hds & _).
  assert (r.1 ≠ []) as Hne by (rewrite Hds; by destruct ds).
  rewrite arcname_at_root by done. split; [done|].
  intros Hname. f_equal. unfold base_parts, claimed_entry_name.
  rewrite bool_decide_eq_false_2 by done.
  destruct r.1 as [|x xs]; done.
Qed.

Lemma C4_witness :
  let b := mkPath "/" ["home"; "u"; "proj"; "sub"; "b.txt"] in
  arcname Posix proj_path b = Some "proj/sub/b.txt"
  ∧ (name proj_path ≠ "" →
     arcname Posix proj_path b
     = Some (claimed_entry_name proj_path (rel_of proj_world b))).
Proof.
  apply (C4_entry_name_is_base_slash_relative proj_world proj_path git_only
           [mkPath "/" ["home"; "u"; "proj"; "a.txt"];
            mkPath "/" ["home"; "u"; "proj"; "sub"; "b.txt"]] 15
           (mkPath "/" ["home"; "u"; "proj"; "sub"; "b.txt"])).
  - reflexivity.
  - vm_compute; reflexivity.
  - apply list_elem_of_In. right. by left.
  - vm_compute; reflexivity.
Defined.

(** The same theorem on a Windows host, where [str] joins with
    backslashes. *)
Example entry_name_on_windows :
  arcname Windows (mkPath "C:\" ["Users"; "u"; "proj"])
    (mkPath "C:\" ["Users"; "u"; "proj"; "sub"; "b.txt"])
  = Some "proj/sub/b.txt".
Proof. reflexivity. Qed.

(** A source given as a relative path: the scan returns paths below the
    resolved root, [relative_to] raises on the first of them, and the run
    ends in a [ValueError] with the archive already created. *)
Example relative_source_raises :
  let run := backup_streaming proj_world relative_proj backups_path
               ZIP_STORED None git_only true in
  run.2 = inl (ValueError "'/home/u/proj/a.txt' is not in the subpath of 'proj'")
  ∧ creates_archive run.1 = true.
Proof. split; vm_compute; reflexivity. Qed.

(** The scenario of the specification: two files, 15 bytes, two entries,
    the last event (15, 15). *)
Example sample_run :
  let run := backup_streaming proj_world proj_path backups_path ZIP_STORED
               None git_only true in
  (iter_files_with_size proj_world proj_path git_only).2
  = inr ([mkPath "/" ["home"; "u"; "proj"; "a.txt"];
          mkPath "/" ["home"; "u"; "proj"; "sub"; "b.txt"]], 15)
  ∧ omap (fun e => match e with EZipEntry nm _ _ => Some nm | _ => None end) run.1
    = ["proj/a.txt"; "proj/sub/b.txt"]
  ∧ List.last (progress_events run.1) (0, 0) = (15, 15).
Proof. repeat split; vm_compute; reflexivity. Qed.

(** * Further properties of the code *)

(** ** The write pass, effect by effect *)

Lemma write_file_unfold w source zf cb total processed fpath :
  write_file w source zf cb total processed fpath
  = match arcname (w_flavour w) source fpath with
    | None =>
        ([], inl (ValueError ("'" +:+ str (w_flavour w) fpath
                              +:+ "' is not in the subpath of '"
                              +:+ str (w_flavour w) source +:+ "'")))
    | Some nm =>
        match content_at w fpath with
        | None => ([], inl (OSError fpath))
        | Some sz =>
            (EOpenRead fpath
               :: EZipEntry nm (zf_compression zf) (zf_compresslevel zf)
               :: (copy_chunks cb total sz processed).1,
             inr (processed + sz))
        end
    end.
Proof.
  unfold write_file. destruct (arcname (w_flavour w) source fpath) as [nm|]; [|done].
  rewrite open_rb_content. destruct (content_at w fpath) as [sz|]; [|done].
  rewrite bind_inr. unfold zf_open. rewrite bind_tell. cbn [fst snd app].
  destruct (copy_chunks_spec cb total sz processed) as (Hr & _).
  by rewrite Hr.
Qed.

Lemma copy_loop_writes cb total fuel :
  ∀ remaining processed,
    enough fuel remaining →
    let t := (copy_loop fuel cb total remaining processed).1 in
    sum_sizes (written t) = remaining
    ∧ Forall chunk_ok t
    ∧ opened t = [] ∧ entry_names t = [].
Proof.
  induction fuel as [|fuel IH]; intros remaining processed Hen.
  { unfold enough in Hen. rewrite CHUNK_SIZE_val in Hen. cbn in Hen. lia. }
  cbv zeta. rewrite copy_loop_S. cbv zeta.
  destruct (N.eqb_spec (N.min CHUNK_SIZE remaining) 0) as [Hz|Hne].
  { assert (remaining = 0) as -> by (rewrite CHUNK_SIZE_val in Hz; lia).
    cbn. repeat split. constructor. }
  set (chunk := N.min CHUNK_SIZE remaining) in *.
  destruct (IH (remaining - chunk) (processed + chunk) (enough_step _ _ Hen Hne))
    as (Hs & Hc & Ho & He).
  destruct (copy_loop fuel cb total (remaining - chunk) (processed + chunk))
    as [t r]; cbn [fst snd] in *.
  assert (chunk_ok (EWrite chunk)) as Hchunk.
  { cbn. subst chunk. lia. }
  rewrite bind_tell. cbn [fst].
  destruct cb.
  - rewrite bind_tell. cbn [fst].
    change (written (EWrite chunk :: EProgress (processed + chunk) total :: t))
      with (chunk :: written t).
    change (opened (EWrite chunk :: EProgress (processed + chunk) total :: t))
      with (opened t).
    change (entry_names (EWrite chunk :: EProgress (processed + chunk) total :: t))
      with (entry_names t).
    repeat split; [|by constructor; [|constructor]|done|done].
    change (sum_sizes (chunk :: written t)) with (chunk + sum_sizes (written t)).
    rewrite Hs. subst chunk. lia.
  - rewrite bind_mret.
    change (written (EWrite chunk :: (t, r).1)) with (chunk :: written t).
    change (opened (EWrite chunk :: (t, r).1)) with (opened t).
    change (entry_names (EWrite chunk :: (t, r).1)) with (entry_names t).
    cbn [fst]. repeat split; [|by constructor|done|done].
    change (sum_sizes (chunk :: written t)) with (chunk + sum_sizes (written t)).
    rewrite Hs. subst chunk. lia.
Qed.

Lemma copy_chunks_writes cb total size processed :
  let t := (copy_chunks cb total size processed).1 in
  sum_sizes (written t) = size
  ∧ Forall chunk_ok t
  ∧ opened t = [] ∧ entry_names t = [].
Proof. apply copy_loop_writes, enough_copy_chunks. Qed.

Lemma written_app t1 t2 : written (t1 ++ t2) = written t1 ++ written t2.
Proof. apply omap_app. Qed.

Lemma opened_app t1 t2 : opened (t1 ++ t2) = opened t1 ++ opened t2.
Proof. apply omap_app. Qed.

Lemma entry_names_app t1 t2 :
  entry_names (t1 ++ t2) = entry_names t1 ++ entry_names t2.
Proof. apply omap_app. Qed.

Lemma write_files_chunk_ok w source zf cb total files :
  ∀ processed,
    Forall chunk_ok (for_each (write_file w source zf cb total) files processed).1.
Proof.
  apply for_each_trace_Forall. intros acc x _. rewrite write_file_unfold.
  destruct (arcname (w_flavour w) source x) as [nm|]; [|constructor].
  destruct (content_at w x) as [sz|]; [|constructor].
  cbn [fst]. constructor; [done|]. constructor; [done|].
  apply copy_chunks_writes.
Qed.

(** A write pass that succeeds opens the files in order, gives each its
    entry, and writes what the files deliver. *)
Lemma write_files_projections w source zf cb total files :
  ∀ processed processed',
    (for_each (write_file w source zf cb total) files processed).2
    = inr processed' →
    let t := (for_each (write_file w source zf cb total) files processed).1 in
    opened t = files
    ∧ Some <$> entry_names t = map (arcname (w_flavour w) source) files
    ∧ sum_sizes (written t)
      = sum_sizes (map (fun p => default 0 (content_at w p)) files).
Proof.
  induction files as [|f files IH]; intros processed processed'; cbn [for_each].
  { done. }
  rewrite write_file_unfold.
  destruct (arcname (w_flavour w) source f) as [nm|] eqn:Hnm; [|by rewrite bind_inl].
  destruct (content_at w f) as [sz|] eqn:Hsz; [|by rewrite bind_inl].
  rewrite bind_inr. cbn [fst snd]. intros Hrest.
  destruct (IH _ _ Hrest) as (Ho & He & Hs).
  destruct (copy_chunks_writes cb total sz processed) as (Hs1 & _ & Ho1 & He1).
  cbv zeta in *.
  change (EOpenRead f :: EZipEntry nm (zf_compression zf) (zf_compresslevel zf)
          :: (copy_chunks cb total sz processed).1)
    with ([EOpenRead f; EZipEntry nm (zf_compression zf) (zf_compresslevel zf)]
          ++ (copy_chunks cb total sz processed).1).
  rewrite !opened_app, !entry_names_app, !written_app, Ho, He1, Ho1.
  cbn [map]. rewrite Hnm, Hsz, <- He. repeat split.
  rewrite !sum_sizes_app, Hs1, Hs. unfold sum_sizes. cbn. lia.
Qed.

(** The trace of a run that returns. *)
Lemma run_success_trace w source dest_dir c l excludes cb archive :
  (backup_streaming w source dest_dir c l excludes cb).2 = inr archive →
  archive = archive_path_of w source dest_dir
  ∧ scan_total w excludes ≠ 0
  ∧ ∃ processed,
      (write_pass w source c l excludes cb).2 = inr processed
      ∧ (backup_streaming w source dest_dir c l excludes cb).1
        = [EMkdir dest_dir] ++ (iter_files_with_size w source excludes).1
          ++ [EZipCreate archive c l]
          ++ (write_pass w source c l excludes cb).1
          ++ EZipClose
             :: (if cb
                 then [EProgress (scan_total w excludes) (scan_total w excludes)]
                 else []).
Proof.
  rewrite backup_streaming_unfold.
  destruct (w_is_dir w); cbn [negb]; [|done].
  destruct (w_mkdir_ok w); cbn [negb]; [|done]. cbv zeta.
  destruct (N.eqb_spec (scan_total w excludes) 0) as [|Hne]; [done|].
  destruct (w_zip_ok w); cbn [negb]; [|done].
  destruct (write_pass w source c l excludes cb) as [tw [e|a]]; cbn [fst snd];
    [done|].
  intros [= <-]. repeat split; [done|]. by exists a.
Qed.

Lemma scan_effects_projections excludes base t :
  Forall (scan_effect_at excludes base) t →
  opened t = [] ∧ entry_names t = [] ∧ written t = [] ∧ Forall chunk_ok t.
Proof.
  induction 1 as [|e t He _ (Ho & Hn & Hw & Hc)]; [done|].
  destruct e; cbn in He; try done; repeat split; try done; by constructor.
Qed.

(** X1. A run that returns has opened exactly the files of the scan, in
    the order of the scan, and has written one archive entry for each of
    them, named by [arcname], in the same order. *)
Theorem returned_run_archives_every_scanned_file
    w source dest_dir c l excludes cb files total archive :
  (iter_files_with_size w source excludes).2 = inr (files, total) →
  (backup_streaming w source dest_dir c l excludes cb).2 = inr archive →
  let t := (backup_streaming w source dest_dir c l excludes cb).1 in
  opened t = files
  ∧ Some <$> entry_names t = map (arcname (w_flavour w) source) files.
Proof.
  intros Hscan Hok. cbv zeta.
  rewrite iter_files_with_size_result in Hscan. injection Hscan as <- <-.
  destruct (run_success_trace _ _ _ _ _ _ _ _ Hok) as (_ & _ & pr & Hw & ->).
  unfold write_pass in *.
  destruct (write_files_projections _ _ _ _ _ _ _ _ Hw) as (Ho & He & _).
  destruct (scan_effects_projections _ _ _
              (iter_files_with_size_trace w source excludes)) as (Ho' & He' & _).
  rewrite !opened_app, !entry_names_app, Ho, Ho', He'.
  destruct cb; cbn; by rewrite ?app_nil_r.
Qed.

Lemma returned_run_archives_every_scanned_file_witness :
  let t := (backup_streaming proj_world proj_path backups_path ZIP_STORED None
              git_only true).1 in
  opened t = [mkPath "/" ["home"; "u"; "proj"; "a.txt"];
              mkPath "/" ["home"; "u"; "proj"; "sub"; "b.txt"]]
  ∧ Some <$> entry_names t
    = map (arcname Posix proj_path)
        [mkPath "/" ["home"; "u"; "proj"; "a.txt"];
         mkPath "/" ["home"; "u"; "proj"; "sub"; "b.txt"]].
Proof.
  apply (returned_run_archives_every_scanned_file proj_world proj_path
           backups_path ZIP_STORED None git_only true _ 15
           (mkPath "/" ["home"; "u"; "backups"; "proj-20240101-120000.zip"]));
    vm_compute; reflexivity.
Defined.

(** X2. In every run, whether it returns or raises, no chunk handed to the
    archive is empty and none is longer than [CHUNK_SIZE] (8 MiB). *)
Theorem every_chunk_is_within_CHUNK_SIZE
    w source dest_dir c l excludes cb n :
  EWrite n ∈ (backup_streaming w source dest_dir c l excludes cb).1 →
  0 < n ∧ n ≤ 8 * 1024 * 1024.
Proof.
  intros Hin.
  assert (Forall chunk_ok (backup_streaming w source dest_dir c l excludes cb).1)
    as Hall.
  { pose proof (scan_effects_projections _ _ _
                  (iter_files_with_size_trace w source excludes))
      as (_ & _ & _ & Hscan).
    pose proof (write_files_chunk_ok w source (mkZipFile c l) cb
                  (scan_total w excludes) (scan_files w excludes) 0) as Hwr.
    fold (write_pass w source c l excludes cb) in Hwr.
    rewrite backup_streaming_unfold.
    destruct (w_is_dir w); cbn [negb]; [|constructor].
    destruct (w_mkdir_ok w); cbn [negb]; [|constructor].
    cbv zeta. destruct (scan_total w excludes =? 0); [by constructor|].
    destruct (w_zip_ok w); cbn [negb]; [|by constructor].
    destruct (write_pass w source c l excludes cb).2; cbn [fst].
    - constructor; [done|]. apply Forall_app; split; [done|].
      constructor; [done|]. apply Forall_app; split; [done|]. by constructor.
    - constructor; [done|]. apply Forall_app; split; [done|].
      constructor; [done|]. apply Forall_app; split; [done|].
      constructor; [done|]. destruct cb; by repeat constructor. }
  rewrite Forall_forall in Hall. exact (Hall _ Hin).
Qed.

Lemma every_chunk_is_within_CHUNK_SIZE_witness : 0 < 10 ∧ 10 ≤ 8 * 1024 * 1024.
Proof.
  apply (every_chunk_is_within_CHUNK_SIZE proj_world proj_path backups_path
           ZIP_STORED None git_only true 10).
  apply list_elem_of_In. vm_compute. do 14 right. by left.
Defined.

(** X3. A run that returns has written to the archive exactly as many
    bytes as the scanned files delivered when they were opened, whatever
    sizes the scan had seen. *)
Theorem returned_run_writes_what_the_files_deliver
    w source dest_dir c l excludes cb files total archive :
  (iter_files_with_size w source excludes).2 = inr (files, total) →
  (backup_streaming w source dest_dir c l excludes cb).2 = inr archive →
  sum_sizes (written (backup_streaming w source dest_dir c l excludes cb).1)
  = sum_sizes (map (fun p => default 0 (content_at w p)) files)
  ∧ ∀ p, p ∈ files → is_Some (content_at w p).
Proof.
  intros Hscan Hok.
  rewrite iter_files_with_size_result in Hscan. injection Hscan as <- <-.
  destruct (run_success_trace _ _ _ _ _ _ _ _ Hok) as (_ & _ & pr & Hw & ->).
  unfold write_pass in *. split.
  - destruct (write_files_projections _ _ _ _ _ _ _ _ Hw) as (_ & _ & Hs).
    destruct (scan_effects_projections _ _ _
                (iter_files_with_size_trace w source excludes))
      as (_ & _ & Hw' & _).
    rewrite !written_app, Hw'. cbn [app written omap].
    change (written [EMkdir dest_dir]) with (@nil N).
    change (written [EZipCreate archive c l]) with (@nil N).
    cbn [app]. rewrite sum_sizes_app, Hs.
    destruct cb; unfold sum_sizes; cbn; lia.
  - clear -Hw. revert Hw. generalize 0.
    induction (scan_files w excludes) as [|f fs IH]; intros p0 Hw p Hp;
      [by apply elem_of_nil in Hp|].
    cbn [for_each] in Hw. rewrite write_file_unfold in Hw.
    destruct (arcname (w_flavour w) source f) as [nm|]; [|by rewrite bind_inl in Hw].
    destruct (content_at w f) as [sz|] eqn:Hsz; [|by rewrite bind_inl in Hw].
    rewrite bind_inr in Hw. cbn [fst snd] in Hw.
    apply elem_of_cons in Hp as [->|Hp]; [by rewrite Hsz|].
    by apply (IH _ Hw).
Qed.

Lemma returned_run_writes_what_the_files_deliver_witness :
  let run := backup_streaming grown_world proj_path backups_path ZIP_STORED
               None git_only true in
  (iter_files_with_size grown_world proj_path git_only).2
  = inr ([mkPath "/" ["home"; "u"; "proj"; "a.txt"]], 5)
  ∧ sum_sizes (written run.1) = 8.
Proof.
  cbv zeta. split; [vm_compute; reflexivity|].
  destruct (returned_run_writes_what_the_files_deliver grown_world proj_path
              backups_path ZIP_STORED None git_only true
              [mkPath "/" ["home"; "u"; "proj"; "a.txt"]] 5
              (mkPath "/" ["home"; "u"; "backups"; "proj-20240101-120000.zip"]))
    as [Hsum _]; [vm_compute; reflexivity..|].
  rewrite Hsum. vm_compute. reflexivity.
Defined.







(** ** The callback only observes *)

Lemma without_progress_app t1 t2 :
  without_progress (t1 ++ t2) = without_progress t1 ++ without_progress t2.
Proof. apply List.filter_app. Qed.

Lemma copy_loop_callback total fuel :
  ∀ remaining processed,
    without_progress (copy_loop fuel true total remaining processed).1
    = (copy_loop fuel false total remaining processed).1
    ∧ progress_events (copy_loop fuel false total remaining processed).1 = [].
Proof.
  induction fuel as [|fuel IH]; intros remaining processed; [done|].
  rewrite !copy_loop_S. cbv zeta.
  destruct (N.min CHUNK_SIZE remaining =? 0); [done|].
  destruct (IH (remaining - N.min CHUNK_SIZE remaining)
               (processed + N.min CHUNK_SIZE remaining)) as (H1 & H2).
  rewrite !bind_tell, bind_mret. cbn [fst].
  cbn [without_progress List.filter is_progress negb].
  fold (without_progress
          (copy_loop fuel true total (remaining - N.min CHUNK_SIZE remaining)
             (processed + N.min CHUNK_SIZE remaining)).1).
  by rewrite H1.
Qed.

Lemma write_files_callback w source zf total files :
  ∀ processed,
    let on := for_each (write_file w source zf true total) files processed in
    let off := for_each (write_file w source zf false total) files processed in
    on.2 = off.2
    ∧ without_progress on.1 = off.1
    ∧ progress_events off.1 = [].
Proof.
  induction files as [|f files IH]; intros processed; [done|].
  cbv zeta. cbn [for_each]. rewrite !write_file_unfold.
  destruct (arcname (w_flavour w) source f) as [nm|]; [|done].
  destruct (content_at w f) as [sz|]; [|done].
  rewrite !bind_inr. cbn [fst snd].
  destruct (IH (processed + sz)) as (Hr & Ht & Hp).
  destruct (copy_loop_callback total (N.to_nat (sz / CHUNK_SIZE) + 2) sz processed)
    as (Hc & Hcp).
  fold (copy_chunks true total sz processed) in Hc.
  fold (copy_chunks false total sz processed) in Hc, Hcp.
  split; [done|].
  change (EOpenRead f :: EZipEntry nm (zf_compression zf) (zf_compresslevel zf)
          :: ?t)
    with ([EOpenRead f; EZipEntry nm (zf_compression zf) (zf_compresslevel zf)]
          ++ t).
  rewrite !without_progress_app, !progress_events_app, Hc, Ht, Hcp, Hp. done.
Qed.

Lemma scan_effects_without_progress excludes base t :
  Forall (scan_effect_at excludes base) t → without_progress t = t.
Proof.
  induction 1 as [|e t He _ IH]; [done|].
  unfold without_progress in *. cbn [List.filter]. rewrite IH.
  destruct e; cbn in He; done.
Qed.

(** X6. The progress callback only observes the run. With and without a
    callback a run ends the same way (the same archive path or the same
    exception) and performs the same effects, apart from the invocations
    of the callback themselves; without a callback nothing is reported. *)
Theorem callback_does_not_influence_the_run
    w source dest_dir c l excludes :
  let on := backup_streaming w source dest_dir c l excludes true in
  let off := backup_streaming w source dest_dir c l excludes false in
  on.2 = off.2
  ∧ without_progress on.1 = off.1
  ∧ progress_events off.1 = [].
Proof.
  cbv zeta. rewrite !backup_streaming_unfold.
  destruct (w_is_dir w); cbn [negb]; [|done].
  destruct (w_mkdir_ok w); cbn [negb]; [|done]. cbv zeta.
  pose proof (iter_files_with_size_trace w source excludes) as Hscan.
  pose proof (scan_effects_without_progress _ _ _ Hscan) as Hwo.
  pose proof (scan_effects_no_progress _ _ _ Hscan) as Hnp.
  assert (∀ t, without_progress (EMkdir dest_dir :: t)
               = EMkdir dest_dir :: without_progress t) as Hmk by done.
  assert (∀ t, progress_events (EMkdir dest_dir :: t) = progress_events t)
    as Hmk' by done.
  destruct (scan_total w excludes =? 0).
  { cbn [fst snd]. by rewrite Hmk, Hmk', Hwo, Hnp. }
  destruct (w_zip_ok w); cbn [negb].
  2:{ cbn [fst snd]. by rewrite Hmk, Hmk', Hwo, Hnp. }
  destruct (write_files_callback w source (mkZipFile c l) (scan_total w excludes)
              (scan_files w excludes) 0) as (Hr & Ht & Hp).
  fold (write_pass w source c l excludes true) in Hr, Ht.
  fold (write_pass w source c l excludes false) in Hr, Ht, Hp.
  rewrite <- Hr.
  destruct (write_pass w source c l excludes true).2 as [e|a]; cbn [fst snd].
  - split; [done|]. rewrite Hmk, Hmk'.
    change (EZipCreate ?a ?b ?d :: ?t) with ([EZipCreate a b d] ++ t).
    by rewrite !without_progress_app, !progress_events_app, Hwo, Hnp, Ht, Hp.
  - split; [done|]. rewrite Hmk, Hmk'.
    change (EZipCreate ?a ?b ?d :: ?t) with ([EZipCreate a b d] ++ t).
    by rewrite !without_progress_app, !progress_events_app, Hwo, Hnp, Ht, Hp.
Qed.

(** ** What the scan returns *)

Lemma entry_Some_elem cs d c : entry cs d = Some c → (d, c) ∈ cs.
Proof.
  unfold entry. destruct (List.find _ cs) as [[d' c']|] eqn:Hf; [|done].
  intros [= <-]. apply find_some in Hf as [Hin Hd]. cbn in Hd.
  apply bool_decide_eq_true in Hd as <-. by apply list_elem_of_In.
Qed.

Lemma select_complete excludes rel :
  ∀ d n f sz,
    lookup_rel n (d :: rel) = Some (Leaf f) →
    st_size f = Some sz → is_file f = true →
    has_excluded excludes (removelast (d :: rel)) = false →
    (d :: rel, sz) ∈ select excludes n.
Proof.
  induction rel as [|d' rel IH]; intros d n f sz Hl Hst Hf Hex;
    cbn [lookup_rel] in Hl; (destruct n as [g|cs|]; [done| |done]);
    destruct (entry cs d) as [c|] eqn:Hent; try done;
    apply entry_Some_elem in Hent; apply select_Dir_elem.
  - left. cbn in Hl. injection Hl as ->. by exists d, f.
  - right. exists d, c, (d' :: rel, sz).
    change (removelast (d :: d' :: rel)) with (d :: removelast (d' :: rel)) in Hex.
    unfold has_excluded in Hex. cbn [existsb] in Hex.
    apply orb_false_elim in Hex as [Hd Hex].
    apply bool_decide_eq_false in Hd.
    assert (is_dir_entry c = true) as Hdir.
    { destruct c as [g|cs'|]; [|done|done]. cbn in Hl. done. }
    repeat split; [done| |by eapply IH].
    unfold entered. cbn [fst snd]. by rewrite Hdir, bool_decide_eq_true_2.
Qed.

(** X7. The scan misses nothing it is meant to keep: every entry of the
    tree that is reached from the root through directories with names
    outside the exclusion set, whose [stat] succeeds and that [is_file]
    accepts, is among the files returned. The name of the file itself
    plays no part: a regular file called [build] is kept although [build]
    is excluded, since only directories are pruned. *)
Theorem scan_returns_every_regular_file
    w source excludes rel f sz :
  lookup_rel (Dir (w_listing w)) rel = Some (Leaf f) →
  st_size f = Some sz →
  is_file f = true →
  has_excluded excludes (removelast rel) = false →
  ∃ files total,
    (iter_files_with_size w source excludes).2 = inr (files, total)
    ∧ at_root (w_resolved w) rel ∈ files.
Proof.
  intros Hl Hst Hf Hex.
  exists (scan_files w excludes), (scan_total w excludes).
  split; [apply iter_files_with_size_result|].
  apply scan_files_elem. exists (rel, sz). split; [|done].
  destruct rel as [|d rel]; [done|].
  by apply (select_complete excludes rel d _ f).
Qed.

Lemma scan_returns_every_regular_file_witness :
  ∃ files total,
    (iter_files_with_size file_named_build_world proj_path DEFAULT_EXCLUDES).2
    = inr (files, total)
    ∧ mkPath "/" ["home"; "u"; "proj"; "build"] ∈ files.
Proof.
  apply (scan_returns_every_regular_file file_named_build_world proj_path
           DEFAULT_EXCLUDES ["build"] (mkFile (Some 3) true (Some 3)) 3);
    vm_compute; reflexivity.
Defined.

Lemma select_Dir_cons excludes e cs :
  select excludes (Dir (e :: cs))
  ≡ₚ contribution excludes e ++ select excludes (Dir cs).
Proof.
  unfold contribution. cbn [select flat_map].
  change (e :: cs) with ([e] ++ cs) at 1.
  unfold fnames, selected. rewrite !omap_app, map_app.
  rewrite <- !app_assoc. apply Permutation_app_head.
  rewrite !app_assoc. apply Permutation_app_tail. apply Permutation_app_comm.
Qed.

Lemma contribution_head excludes e r :
  r ∈ contribution excludes e → ∃ rest, r.1 = e.1 :: rest.
Proof.
  unfold contribution. rewrite elem_of_app, !list_elem_of_In, in_map_iff.
  intros [([nm sz] & <- & Hin)|Hin].
  - destruct e as [d [[[s0|] [] cc]|cs'|]]; cbn in Hin; try done.
    destruct Hin as [[= <- <-]|[]]. by exists [].
  - unfold select_entry in Hin. destruct (entered excludes e); [|done].
    apply in_map_iff in Hin as (r' & <- & _). by eexists.
Qed.

Lemma select_Dir_head excludes cs r :
  r ∈ select excludes (Dir cs) → ∃ d rest, r.1 = d :: rest ∧ d ∈ cs.*1.
Proof.
  intros [(nm & f & Hr & Hin & _)|(d & c & r' & Hin & _ & _ & ->)]%select_Dir_elem.
  - exists nm, []. rewrite Hr. split; [done|].
    apply list_elem_of_fmap. by exists (nm, Leaf f).
  - exists d, r'.1. split; [done|]. apply list_elem_of_fmap. by exists (d, c).
Qed.

Lemma paths_map_cons (d : string) (l : list (list string * N)) :
  (map (fun r => (d :: r.1, r.2)) l).*1 = (cons d) <$> l.*1.
Proof.
  induction l as [|x xs IH]; [done|]. cbn [map]. by rewrite !fmap_cons, IH.
Qed.

Lemma contribution_NoDup excludes e :
  NoDup (select excludes e.2).*1 → NoDup (contribution excludes e).*1.
Proof.
  intros Hnd. unfold contribution.
  destruct e as [d [[[s0|] [] cc]|cs'|]]; cbn -[select];
    try apply NoDup_nil_2; try (apply NoDup_singleton).
  - unfold select_entry. destruct (entered excludes (d, Dir cs')); [|apply NoDup_nil_2].
    cbn [fst snd] in *.
    rewrite paths_map_cons.
    apply NoDup_fmap_2; [|done]. by intros x y [= ->].
  - unfold select_entry. destruct (entered excludes (d, DirLink)); apply NoDup_nil_2.
Qed.

(** In a well-formed tree no relative path is kept twice. *)
Lemma select_NoDup excludes n :
  wf_node n = true → NoDup (select excludes n).*1.
Proof.
  induction n as [f|cs IH|] using node_ind'; intros Hwf;
    [apply NoDup_nil_2| |apply NoDup_nil_2].
  apply wf_node_Dir in Hwf as [Hnd Hwf].
  induction cs as [|[d c] cs IHcs]; [apply NoDup_nil_2|].
  rewrite select_Dir_cons, fmap_app.
  apply Forall_cons in IH as [IHc IH]. cbn [fst snd] in *.
  apply NoDup_cons in Hnd as [Hd Hnd].
  apply NoDup_app. split; [|split].
  - apply contribution_NoDup, IHc. apply (Hwf d). by left.
  - intros path (r & -> & Hr)%list_elem_of_fmap (r' & Heq & Hr')%list_elem_of_fmap.
    apply contribution_head in Hr as (rest & Hrest).
    apply select_Dir_head in Hr' as (d' & rest' & Hrest' & Hd').
    rewrite Heq, Hrest' in Hrest. injection Hrest as -> _. done.
  - apply IHcs; [done|done|]. intros d' c' Hin. apply (Hwf d'). by right.
Qed.

(** X8. In a tree with unique names per directory the scan returns no file
    twice, and every file it returns is an entry of the tree whose [stat]
    succeeded and that [is_file] accepted. *)
Theorem scan_returns_regular_files_once
    w source excludes files total :
  wf_node (Dir (w_listing w)) = true →
  (iter_files_with_size w source excludes).2 = inr (files, total) →
  NoDup files
  ∧ ∀ p, p ∈ files →
         ∃ f sz, fs_lookup w p = Some (Leaf f)
                 ∧ is_file f = true ∧ st_size f = Some sz.
Proof.
  intros Hwf Hscan.
  rewrite iter_files_with_size_result in Hscan. injection Hscan as <- <-.
  split.
  - unfold scan_files, scanned.
    pose proof (select_NoDup excludes _ Hwf) as Hnd.
    induction (select excludes (Dir (w_listing w))) as [|r rs IH];
      [apply NoDup_nil_2|].
    cbn in Hnd. apply NoDup_cons in Hnd as [Hr Hnd]. cbn [map].
    apply NoDup_cons. split; [|by apply IH].
    intros Hin. apply Hr. apply list_elem_of_In, in_map_iff in Hin
      as (r' & Heq & Hin).
    apply list_elem_of_fmap. exists r'. split; [|by apply list_elem_of_In].
    unfold at_root in Heq. injection Heq as Heq. by apply app_inv_head in Heq.
  - intros p (r & Hr & ->)%scan_files_elem.
    destruct (select_lookup _ _ Hwf _ Hr) as (f & Hl & Hst & Hf).
    exists f, r.2. by rewrite fs_lookup_at_root.
Qed.

Lemma scan_returns_regular_files_once_witness :
  let files := [mkPath "/" ["home"; "u"; "proj"; "a.txt"];
                mkPath "/" ["home"; "u"; "proj"; "sub"; "b.txt"]] in
  NoDup files
  ∧ ∀ p, p ∈ files →
         ∃ f sz, fs_lookup proj_world p = Some (Leaf f)
                 ∧ is_file f = true ∧ st_size f = Some sz.
Proof.
  apply (scan_returns_regular_files_once proj_world proj_path git_only _ 15);
    vm_compute; reflexivity.
Defined.

(** ** The exclusion list typed by the user *)

















(** ** The command line front end *)


Lemma main_headless {T} (due : T → T → bool) t0 to_path tk w clock args :
  headless args = true →
  main due t0 to_path tk w clock args
  = match prepared to_path args with
    | inl e => Uncaught e
    | inr (src, dst, (compression, compresslevel)) =>
        let run := backup_streaming w src dst compression compresslevel
                     (parse_excludes (a_exclude args)) true in
        let lines := printed due t0 clock 0 (progress_events run.1) in
        match run.2 with
        | inr out => Created out lines
        | inl e => Failed e lines
        end
    end.
Proof.
  unfold headless, main. intros [[Hg Hs]%andb_prop Hd]%andb_prop.
  apply negb_true_iff in Hg. by rewrite Hg, Hs, Hd.
Qed.

Lemma main_gui {T} (due : T → T → bool) t0 to_path tk w clock args :
  headless args = false →
  main due t0 to_path tk w clock args = if negb tk then NoTk else GuiStarted.
Proof.
  unfold headless, main. intros H.
  destruct (a_gui args); [done|]. cbn [negb andb orb] in *. by rewrite H.
Qed.






Lemma pct_full total : total ≠ 0 → pct total total = 100.
Proof.
  intros Hne. unfold pct. rewrite (proj2 (N.eqb_neq _ _) Hne).
  rewrite N.mul_comm. by apply N.div_mul.
Qed.

Lemma pct_mono total a b : a ≤ b → pct a total ≤ pct b total.
Proof.
  intros Hle. unfold pct. destruct (N.eqb_spec total 0) as [|Hne]; [done|].
  apply N.Div0.div_le_mono. lia.
Qed.

Lemma printed_app_final {T} (due : T → T → bool) clock total evs :
  ∀ last i,
    printed due last clock i (evs ++ [(total, total)])
    = printed due last clock i evs ++ [pct total total].
Proof.
  induction evs as [|ev evs IH]; intros last i.
  - cbn. unfold print_progress. cbn [fst snd].
    by rewrite N.eqb_refl, orb_true_r.
  - cbn [app printed]. by rewrite IH, app_assoc.
Qed.

(** X13. When [main] reports that the backup was created, progress lines
    were printed and the last of them shows 100%, however the calls of the
    callback were spaced in time: the closing call has [done == tot], which
    overrides the quarter-second throttle. *)
Theorem created_backup_ends_at_100_percent
    {T} (due : T → T → bool) t0 to_path tk w clock args out lines :
  main due t0 to_path tk w clock args = Created out lines →
  ∃ before, lines = before ++ [100].
Proof.
  destruct (headless args) eqn:Hh; [|rewrite main_gui by done; by destruct tk].
  rewrite main_headless by done.
  destruct (prepared to_path args) as [e|[[src dst] [c l]]]; [done|]. cbv zeta.
  destruct (backup_streaming _ _ _ _ _ _ _).2 as [e|out'] eqn:Hrun; [done|].
  intros [= <- <-].
  destruct (run_success _ _ _ _ _ _ _ _ Hrun) as (Hne & pr & _ & ->).
  rewrite printed_app_final, pct_full by done. by eexists.
Qed.

Lemma created_backup_ends_at_100_percent_witness :
  ∃ before, [33; 100; 100] = before ++ [100].
Proof.
  apply (created_backup_ends_at_100_percent sample_due 0%nat sample_to_path
           true proj_world sample_clock sample_args
           (mkPath "/" ["home"; "u"; "backups"; "proj-20240101-120000.zip"])).
  vm_compute. reflexivity.
Defined.

Lemma nondecreasing_climbs ps : nondecreasing ps → climbs 0 ps.
Proof.
  induction ps as [|p ps IH]; [done|]. intros Hnd. split; [lia|].
  assert (nondecreasing ps) as Hps.
  { intros i a b Ha Hb. by apply (Hnd (S i)). }
  specialize (IH Hps). destruct ps as [|q qs]; [done|].
  destruct IH as [_ IH]. split; [|done]. by apply (Hnd 0%nat).
Qed.

Lemma printed_climbs {T} (due : T → T → bool) clock total evs :
  Forall (fun ev => ev.1 ≤ total ∧ ev.2 = total) evs →
  ∀ last i lo,
    climbs lo evs.*1 →
    climbs (pct lo total) (printed due last clock i evs)
    ∧ Forall (fun p => p ≤ pct total total) (printed due last clock i evs).
Proof.
  induction 1 as [|[a b] evs [Ha Hb] _ IH]; intros last i lo Hc; [done|].
  cbn in Ha, Hb. subst b. destruct Hc as [Hlo Hc]. cbn [printed fst snd].
  destruct (IH (print_progress due last (clock i) a total).2 (S i) a Hc)
    as [Hc' Hall].
  destruct (print_progress due last (clock i) a total).1 as [p|] eqn:Hp.
  - assert (p = pct a total) as ->.
    { unfold print_progress in Hp. destruct (_ || _); cbn in Hp; by simplify_eq. }
    cbn [app climbs]. split; [split; [by apply pct_mono|done]|].
    constructor; [by apply pct_mono|done].
  - cbn [app]. split; [|done].
    by apply (climbs_weaken (pct a total)); [apply pct_mono|].
Qed.

(** X14. In a backup run from the command line that returns, over a tree
    whose scanned files deliver at write time the bytes [stat] reported,
    the percentages printed never go down and never exceed 100. *)
Theorem printed_percentages_climb_to_100
    {T} (due : T → T → bool) t0 to_path tk w clock args out lines :
  wf_node (Dir (w_listing w)) = true →
  (∀ p, p ∈ scan_files w (parse_excludes (a_exclude args)) →
        content_at w p = stat_size_at w p) →
  main due t0 to_path tk w clock args = Created out lines →
  nondecreasing lines ∧ Forall (fun p => p ≤ 100) lines.
Proof.
  intros Hwf Hsteady.
  destruct (headless args) eqn:Hh; [|rewrite main_gui by done; by destruct tk].
  rewrite main_headless by done.
  destruct (prepared to_path args) as [e|[[src dst] [c l]]]; [done|]. cbv zeta.
  destruct (backup_streaming _ _ _ _ _ _ _).2 as [e|out'] eqn:Hrun; [done|].
  intros [= <- <-].
  destruct (progress_of_steady_run _ _ _ _ _ _ _ Hwf Hsteady Hrun)
    as (Hnd & Hall & _).
  destruct (run_success _ _ _ _ _ _ _ _ Hrun) as (Hne & _).
  destruct (printed_climbs due clock _ _ Hall t0 0%nat 0
              (nondecreasing_climbs _ Hnd)) as [Hc Hle].
  rewrite pct_full in Hle by done. split; [|done].
  by apply (climbs_nondecreasing _ _ Hc).
Qed.

Lemma printed_percentages_climb_to_100_witness :
  nondecreasing [33; 100; 100] ∧ Forall (fun p => p ≤ 100) [33; 100; 100].
Proof.
  apply (printed_percentages_climb_to_100 sample_due 0%nat sample_to_path
           true proj_world sample_clock sample_args
           (mkPath "/" ["home"; "u"; "backups"; "proj-20240101-120000.zip"])).
  - vm_compute; reflexivity.
  - intros p Hp.
    assert (p ∈ [mkPath "/" ["home"; "u"; "proj"; "a.txt"];
                 mkPath "/" ["home"; "u"; "proj"; "sub"; "b.txt"]]) as Hp'.
    { revert Hp. vm_compute. done. }
    apply elem_of_cons in Hp' as [->|Hp']; [vm_compute; reflexivity|].
    apply elem_of_cons in Hp' as [->|Hp']; [vm_compute; reflexivity|].
    by apply elem_of_nil in Hp'.
  - vm_compute. reflexivity.
Defined.

(** ** The window front end *)



Lemma gui_compression_accepted choice :
  ∃ c l, compression_from_args (gui_compression choice).1 (gui_compression choice).2
         = inr (c, l).
Proof.
  unfold gui_compression. destruct (String.prefix "Store" choice); [by eexists _, _|].
  destruct (String.index 0 "level 1" choice); by eexists _, _.
Qed.

Lemma start_backup_unfold w dst_is_dir src dst choice text :
  w_is_dir w = true → dst_is_dir = true →
  ∃ c l,
    compression_from_args (gui_compression choice).1 (gui_compression choice).2
    = inr (c, l)
    ∧ start_backup w dst_is_dir src dst choice text
      = ([Ui (UStatus SScanning); Ui UReset]
         ++ worker w src dst c l (parse_excludes text), None).
Proof.
  intros Hs Hd. destruct (gui_compression_accepted choice) as (c & l & Hc).
  exists c, l. split; [done|]. unfold start_backup. by rewrite Hs, Hd, Hc.
Qed.

Lemma worker_unfold w src dst c l excludes :
  worker w src dst c l excludes
  = map Fs (iter_files_with_size w src excludes).1
    ++ if scan_total w excludes =? 0 then [Ui (UStatus SNoFiles)]
       else
         let run := backup_streaming w src dst c l excludes true in
         [Ui (UStatus SBackingUp); Ui (UProgress 0 (scan_total w excludes))]
         ++ map to_gui run.1
         ++ match run.2 with
            | inr out =>
                [Ui (UProgress (scan_total w excludes) (scan_total w excludes));
                 Ui (UStatus (SCreated out)); Ui (UInfo out)]
            | inl e => [Ui (UStatus SFailed); Ui (UError e)]
            end.
Proof. unfold worker. by rewrite iter_files_with_size_result. Qed.

Lemma fs_effects_app evs1 evs2 :
  fs_effects (evs1 ++ evs2) = fs_effects evs1 ++ fs_effects evs2.
Proof. apply omap_app. Qed.

Lemma ui_errors_app evs1 evs2 :
  ui_errors (evs1 ++ evs2) = ui_errors evs1 ++ ui_errors evs2.
Proof. apply omap_app. Qed.

Lemma ui_progress_app evs1 evs2 :
  ui_progress (evs1 ++ evs2) = ui_progress evs1 ++ ui_progress evs2.
Proof. apply omap_app. Qed.

Lemma fs_effects_Fs t : fs_effects (map Fs t) = t.
Proof.
  induction t as [|e t IH]; [done|]. cbn [map].
  change (fs_effects (Fs e :: map Fs t)) with (e :: fs_effects (map Fs t)).
  by rewrite IH.
Qed.

Lemma ui_errors_Fs t : ui_errors (map Fs t) = [].
Proof. induction t as [|e t IH]; [done|]. exact IH. Qed.

Lemma ui_progress_Fs t : ui_progress (map Fs t) = [].
Proof. induction t as [|e t IH]; [done|]. exact IH. Qed.

Lemma fs_effects_to_gui t : fs_effects (map to_gui t) = without_progress t.
Proof.
  induction t as [|e t IH]; [done|]. cbn [map].
  destruct e;
    first [ exact IH
          | match goal with
            | |- fs_effects (to_gui ?e :: ?l) = _ =>
                change (fs_effects (to_gui e :: l)) with (e :: fs_effects l);
                change (without_progress (e :: t)) with (e :: without_progress t);
                by rewrite IH
            end ].
Qed.


Lemma ui_progress_to_gui t : ui_progress (map to_gui t) = progress_events t.
Proof.
  induction t as [|e t IH]; [done|]. cbn [map].
  destruct e;
    first [ exact IH
          | match goal with
            | |- ui_progress (to_gui (EProgress ?a ?b) :: ?l) = _ =>
                change (ui_progress (to_gui (EProgress a b) :: l))
                  with ((a, b) :: ui_progress l);
                change (progress_events (EProgress a b :: t))
                  with ((a, b) :: progress_events t);
                by rewrite IH
            end ].
Qed.

(** X15. In the window an empty source is no error. When the scan of a
    valid source totals 0 bytes, the click scans the tree and sets the
    status to "No files to back up.": [backup_streaming] is not called, no
    directory is made, no archive is created and no error box is shown. *)
Theorem window_reports_empty_source_without_error
    w src dst choice text files :
  w_is_dir w = true →
  (iter_files_with_size w src (parse_excludes text)).2 = inr (files, 0) →
  let click := start_backup w true src dst choice text in
  click.2 = None
  ∧ fs_effects click.1 = (iter_files_with_size w src (parse_excludes text)).1
  ∧ ui_errors click.1 = []
  ∧ List.last click.1 (Ui UReset) = Ui (UStatus SNoFiles).
Proof.
  intros Hdir Hscan. rewrite iter_files_with_size_result in Hscan.
  injection Hscan as _ Htot. cbv zeta.
  destruct (start_backup_unfold w true src dst choice text Hdir eq_refl)
    as (c & l & _ & ->).
  rewrite worker_unfold, Htot. cbn [fst snd N.eqb].
  rewrite fs_effects_app, ui_errors_app, fs_effects_app, ui_errors_app.
  rewrite fs_effects_Fs, ui_errors_Fs.
  generalize (iter_files_with_size w src (parse_excludes text)).1 as ts.
  intros ts. repeat split.
  - cbn. by rewrite app_nil_r.
  - by rewrite app_assoc, last_last.
Qed.

Lemma window_reports_empty_source_without_error_witness :
  let click := start_backup all_excluded_world true proj_path backups_path
                 "Store (fastest)" ".git" in
  click.2 = None
  ∧ fs_effects click.1 = [EScandir proj_path]
  ∧ ui_errors click.1 = []
  ∧ List.last click.1 (Ui UReset) = Ui (UStatus SNoFiles).
Proof.
  apply (window_reports_empty_source_without_error all_excluded_world proj_path
           backups_path "Store (fastest)" ".git" []);
    vm_compute; reflexivity.
Defined.



Lemma run_starts_with_mkdir_and_scan w source dest_dir c l excludes cb :
  w_is_dir w = true →
  w_mkdir_ok w = true →
  ∃ rest,
    without_progress (backup_streaming w source dest_dir c l excludes cb).1
    = EMkdir dest_dir :: (iter_files_with_size w source excludes).1 ++ rest.
Proof.
  intros Hdir Hmk.
  pose proof (scan_effects_without_progress _ _ _
                (iter_files_with_size_trace w source excludes)) as Hwo.
  assert (∀ t, without_progress (EMkdir dest_dir :: t)
               = EMkdir dest_dir :: without_progress t) as Hcons by done.
  rewrite backup_streaming_unfold, Hdir, Hmk. cbn [negb]. cbv zeta.
  destruct (scan_total w excludes =? 0).
  { cbn [fst]. rewrite Hcons, Hwo. exists []. by rewrite app_nil_r. }
  destruct (w_zip_ok w); cbn [negb].
  2:{ cbn [fst]. rewrite Hcons, Hwo. exists []. by rewrite app_nil_r. }
  destruct (write_pass w source c l excludes cb).2; cbn [fst];
    rewrite Hcons, without_progress_app, Hwo; by eexists.
Qed.

(** X17. A click that goes on to the backup walks the source tree twice:
    once in the worker, to find the total, and once more inside
    [backup_streaming], after the destination directory was made. *)
Theorem window_scans_the_tree_twice
    w src dst choice text files total :
  w_is_dir w = true →
  w_mkdir_ok w = true →
  (iter_files_with_size w src (parse_excludes text)).2 = inr (files, total) →
  total ≠ 0 →
  let scan := (iter_files_with_size w src (parse_excludes text)).1 in
  ∃ rest,
    fs_effects (start_backup w true src dst choice text).1
    = scan ++ EMkdir dst :: scan ++ rest.
Proof.
  intros Hdir Hmk Hscan Htot. cbv zeta.
  rewrite iter_files_with_size_result in Hscan. injection Hscan as _ <-.
  destruct (start_backup_unfold w true src dst choice text Hdir eq_refl)
    as (c & l & _ & ->).
  cbn [fst]. rewrite worker_unfold, (proj2 (N.eqb_neq _ _) Htot). cbv zeta.
  rewrite !fs_effects_app, fs_effects_Fs, fs_effects_to_gui.
  change (fs_effects [Ui (UStatus SScanning); Ui UReset]) with (@nil effect).
  change (fs_effects [Ui (UStatus SBackingUp);
                      Ui (UProgress 0 (scan_total w (parse_excludes text)))])
    with (@nil effect).
  cbn [app].
  destruct (run_starts_with_mkdir_and_scan w src dst c l (parse_excludes text)
              true Hdir Hmk) as [rest ->].
  eexists. f_equal. rewrite <- app_comm_cons, <- app_assoc. reflexivity.
Qed.

Lemma window_scans_the_tree_twice_witness :
  let scan := (iter_files_with_size proj_world proj_path (parse_excludes ".git")).1 in
  ∃ rest,
    fs_effects (start_backup proj_world true proj_path backups_path
                  "Store (fastest)" ".git").1
    = scan ++ EMkdir backups_path :: scan ++ rest.
Proof.
  apply (window_scans_the_tree_twice proj_world proj_path backups_path
           "Store (fastest)" ".git"
           [mkPath "/" ["home"; "u"; "proj"; "a.txt"];
            mkPath "/" ["home"; "u"; "proj"; "sub"; "b.txt"]] 15);
    try (vm_compute; reflexivity).
  discriminate.
Defined.

(** X18. When a click ends with the "Done" box, over a tree whose scanned
    files deliver at write time the bytes [stat] reported, the progress
    posted to the window starts at 0 of the total, never goes down, never
    exceeds the total, always carries the same total, and ends at the
    total. *)
Theorem window_progress_runs_from_0_to_total
    w src dst choice text files total out :
  w_is_dir w = true →
  wf_node (Dir (w_listing w)) = true →
  (iter_files_with_size w src (parse_excludes text)).2 = inr (files, total) →
  (∀ p, p ∈ files → content_at w p = stat_size_at w p) →
  let click := start_backup w true src dst choice text in
  List.last click.1 (Ui UReset) = Ui (UInfo out) →
  (∃ evs, ui_progress click.1 = (0, total) :: evs ++ [(total, total)])
  ∧ nondecreasing (ui_progress click.1).*1
  ∧ Forall (fun ev => ev.1 ≤ total ∧ ev.2 = total) (ui_progress click.1).
Proof.
  intros Hdir Hwf Hscan Hsteady. cbv zeta.
  rewrite iter_files_with_size_result in Hscan. injection Hscan as <- <-.
  destruct (start_backup_unfold w true src dst choice text Hdir eq_refl)
    as (c & l & _ & ->).
  cbn [fst]. rewrite worker_unfold.
  set (total := scan_total w (parse_excludes text)) in *.
  destruct (N.eqb_spec total 0) as [Hz|Hne].
  { rewrite !app_assoc, last_last. done. }
  cbv zeta.
  destruct (backup_streaming w src dst c l (parse_excludes text) true).2
    as [e|out'] eqn:Hrun.
  { change [Ui (UStatus SFailed); Ui (UError e)]
      with ([Ui (UStatus SFailed)] ++ [Ui (UError e)]).
    rewrite !app_assoc, last_last. done. }
  intros _.
  destruct (progress_of_steady_run _ _ _ _ _ _ _ Hwf Hsteady Hrun)
    as (Hnd & Hall & pre & Hpre).
  fold total in Hall, Hpre.
  assert (ui_progress
            ([Ui (UStatus SScanning); Ui UReset]
             ++ map Fs (iter_files_with_size w src (parse_excludes text)).1
             ++ [Ui (UStatus SBackingUp); Ui (UProgress 0 total)]
             ++ map to_gui
                  (backup_streaming w src dst c l (parse_excludes text) true).1
             ++ [Ui (UProgress total total); Ui (UStatus (SCreated out'));
                 Ui (UInfo out')])
          = (0, total)
            :: progress_events
                 (backup_streaming w src dst c l (parse_excludes text) true).1
            ++ [(total, total)]) as ->.
  { rewrite !ui_progress_app, ui_progress_Fs, ui_progress_to_gui. done. }
  set (evs := progress_events _) in *.
  split; [by eexists|]. split.
  - apply (climbs_nondecreasing 0). cbn [fmap list_fmap fst climbs].
    split; [lia|]. rewrite fmap_app. apply climbs_app.
    + by apply nondecreasing_climbs.
    + cbn. split; [|done].
      rewrite Hpre, fmap_app, last_app_default. cbn. lia.
  - constructor; [cbn; split; [lia|done]|].
    apply Forall_app. split; [done|]. by repeat constructor.
Qed.

Lemma window_progress_runs_from_0_to_total_witness :
  let click := start_backup proj_world true proj_path backups_path
                 "Store (fastest)" ".git" in
  (∃ evs, ui_progress click.1 = (0, 15) :: evs ++ [(15, 15)])
  ∧ nondecreasing (ui_progress click.1).*1
  ∧ Forall (fun ev => ev.1 ≤ 15 ∧ ev.2 = 15) (ui_progress click.1).
Proof.
  apply (window_progress_runs_from_0_to_total proj_world proj_path backups_path
           "Store (fastest)" ".git"
           [mkPath "/" ["home"; "u"; "proj"; "a.txt"];
            mkPath "/" ["home"; "u"; "proj"; "sub"; "b.txt"]] 15
           (mkPath "/" ["home"; "u"; "backups"; "proj-20240101-120000.zip"])).
  - reflexivity.
  - vm_compute; reflexivity.
  - vm_compute; reflexivity.
  - intros p Hp.
    apply elem_of_cons in Hp as [->|Hp]; [vm_compute; reflexivity|].
    apply elem_of_cons in Hp as [->|Hp]; [vm_compute; reflexivity|].
    by apply elem_of_nil in Hp.
  - vm_compute; reflexivity.
Defined.

(** ** The archive file and the cadence of the callback *)

Lemma created_app t1 t2 : created (t1 ++ t2) = created t1 ++ created t2.
Proof. apply omap_app. Qed.

Lemma copy_loop_cadence total fuel :
  ∀ remaining processed,
    let t := (copy_loop fuel true total remaining processed).1 in
    length (progress_events t) = length (written t) ∧ created t = [].
Proof.
  induction fuel as [|fuel IH]; intros remaining processed; [done|].
  cbv zeta. rewrite copy_loop_S. cbv zeta.
  destruct (N.min CHUNK_SIZE remaining =? 0); [done|].
  destruct (IH (remaining - N.min CHUNK_SIZE remaining)
               (processed + N.min CHUNK_SIZE remaining)) as (H1 & H2).
  rewrite !bind_tell. cbn [fst].
  set (t := (copy_loop fuel true total _ _).1) in *.
  change (progress_events (EWrite ?n :: EProgress ?a ?b :: t))
    with ((a, b) :: progress_events t).
  change (written (EWrite ?n :: EProgress ?a ?b :: t)) with (n :: written t).
  change (created (EWrite ?n :: EProgress ?a ?b :: t)) with (created t).
  cbn [length]. by rewrite H1.
Qed.

Lemma write_files_cadence w source zf total files :
  ∀ processed,
    let t := (for_each (write_file w source zf true total) files processed).1 in
    length (progress_events t) = length (written t) ∧ created t = [].
Proof.
  induction files as [|f files IH]; intros processed; [done|].
  cbv zeta. cbn [for_each]. rewrite write_file_unfold.
  destruct (arcname (w_flavour w) source f) as [nm|]; [|done].
  destruct (content_at w f) as [sz|]; [|done].
  rewrite bind_inr. cbn [fst snd].
  destruct (IH (processed + sz)) as (H1 & H2).
  destruct (copy_loop_cadence total (N.to_nat (sz / CHUNK_SIZE) + 2) sz processed)
    as (H3 & H4).
  fold (copy_chunks true total sz processed) in H3, H4.
  change (EOpenRead f :: EZipEntry nm (zf_compression zf) (zf_compresslevel zf)
          :: ?t)
    with ([EOpenRead f; EZipEntry nm (zf_compression zf) (zf_compresslevel zf)]
          ++ t).
  rewrite !progress_events_app, !written_app, !created_app, !length_app.
  rewrite H1, H2, H3, H4. done.
Qed.

Lemma scan_effects_not_created excludes base t :
  Forall (scan_effect_at excludes base) t → created t = [].
Proof.
  induction 1 as [|e t He _ IH]; [done|]. destruct e; cbn in He; done.
Qed.

(** X19. The callback is invoked once after every chunk written, and once
    more when the run returns: with a callback, a run that returns has
    made one invocation more than it wrote chunks, and a run that raises
    has made as many as it wrote. *)
Theorem one_callback_per_chunk_and_a_closing_one
    w source dest_dir c l excludes :
  let run := backup_streaming w source dest_dir c l excludes true in
  length (progress_events run.1)
  = (length (written run.1)
     + match run.2 with inr _ => 1 | inl _ => 0 end)%nat.
Proof.
  cbv zeta. rewrite backup_streaming_unfold.
  destruct (w_is_dir w); cbn [negb]; [|done].
  destruct (w_mkdir_ok w); cbn [negb]; [|done]. cbv zeta.
  pose proof (iter_files_with_size_trace w source excludes) as Hscan.
  pose proof (scan_effects_no_progress _ _ _ Hscan) as Hnp.
  destruct (scan_effects_projections _ _ _ Hscan) as (_ & _ & Hnw & _).
  assert (∀ t, progress_events (EMkdir dest_dir :: t) = progress_events t)
    as Hmk by done.
  assert (∀ t, written (EMkdir dest_dir :: t) = written t) as Hmk' by done.
  destruct (scan_total w excludes =? 0).
  { cbn [fst snd]. by rewrite Hmk, Hmk', Hnp, Hnw. }
  destruct (w_zip_ok w); cbn [negb].
  2:{ cbn [fst snd]. by rewrite Hmk, Hmk', Hnp, Hnw. }
  destruct (write_files_cadence w source (mkZipFile c l) (scan_total w excludes)
              (scan_files w excludes) 0) as (Hc & _).
  fold (write_pass w source c l excludes true) in Hc.
  destruct (write_pass w source c l excludes true).2 as [e|a]; cbn [fst snd];
    rewrite Hmk, Hmk';
    change (EZipCreate ?a ?b ?d :: ?t) with ([EZipCreate a b d] ++ t);
    rewrite !progress_events_app, !written_app, Hnp, Hnw, !length_app, Hc;
    cbn; lia.
Qed.

(** X20. A run that returns has created exactly one archive file, and the
    path it returns is the path of that file: the file named after the
    base name of the source and the time stamp, directly in the
    destination directory. *)
Theorem returned_path_is_the_archive_created
    w source dest_dir c l excludes cb archive :
  let run := backup_streaming w source dest_dir c l excludes cb in
  run.2 = inr archive →
  created run.1 = [archive]
  ∧ archive = dest_dir // (name source +:+ "-" +:+ w_now w +:+ ".zip").
Proof.
  cbv zeta. intros Hok.
  destruct (run_success_trace _ _ _ _ _ _ _ _ Hok) as (-> & _ & pr & Hw & ->).
  split; [|done].
  pose proof (scan_effects_not_created _ _ _
                (iter_files_with_size_trace w source excludes)) as Hscan.
  assert (created (write_pass w source c l excludes cb).1 = []) as Hwr.
  { pose proof (write_files_trace w source c l cb (scan_total w excludes)
                  (scan_files w excludes) 0) as Hall.
    fold (write_pass w source c l excludes cb) in Hall.
    induction Hall as [|e t He _ IH]; [done|]. destruct e; cbn in He; done. }
  rewrite !created_app, Hscan, Hwr. by destruct cb.
Qed.

Lemma returned_path_is_the_archive_created_witness :
  let run := backup_streaming proj_world proj_path backups_path ZIP_STORED None
               git_only true in
  let archive := mkPath "/" ["home"; "u"; "backups"; "proj-20240101-120000.zip"] in
  created run.1 = [archive]
  ∧ archive = backups_path // (name proj_path +:+ "-" +:+ w_now proj_world +:+ ".zip").
Proof.
  apply (returned_path_is_the_archive_created proj_world proj_path backups_path
           ZIP_STORED None git_only true).
  vm_compute; reflexivity.
Defined.

(** ** Entry names do not clash *)

Lemma split_on_free_item c x : free_of c x = true → split_on c x = [x].
Proof.
  induction x as [|c' x IH]; [done|]. cbn [free_of split_on].
  intros [Hc Hx]%andb_prop. apply negb_true_iff in Hc. by rewrite Hc, IH.
Qed.

Lemma split_on_free_cons c x rest :
  free_of c x = true →
  split_on c (x +:+ String c rest) = x :: split_on c rest.
Proof.
  induction x as [|c' x IH].
  - intros _. change ("" +:+ String c rest) with (String c rest).
    cbn [split_on]. by rewrite Ascii.eqb_refl.
  - cbn [free_of]. intros [Hc Hx]%andb_prop. apply negb_true_iff in Hc.
    change (String c' x +:+ String c rest) with (String c' (x +:+ String c rest)).
    cbn [split_on]. by rewrite Hc, IH.
Qed.

Lemma split_on_concat_free c names :
  names ≠ [] →
  forallb (free_of c) names = true →
  split_on c (String.concat (String c "") names) = names.
Proof.
  induction names as [|x names IH]; [done|]. intros _. cbn [forallb].
  intros [Hx Hnames]%andb_prop.
  destruct names as [|y names]; [by apply split_on_free_item|].
  change (String.concat (String c "") (x :: y :: names))
    with (x +:+ String c (String.concat (String c "") (y :: names))).
  by rewrite split_on_free_cons, IH.
Qed.

Lemma forallb_plain l :
  forallb plain l = true →
  forallb (free_of "/") l = true ∧ forallb no_backslash l = true.
Proof.
  induction l as [|x l IH]; [done|]. cbn [forallb]. unfold plain at 1.
  intros [[H1 H2]%andb_prop H3]%andb_prop. destruct (IH H3) as [H4 H5].
  by rewrite H1, H2, H4, H5.
Qed.

(** X21. Two different files of the scan never get the same entry name, as
    long as the source is given in resolved form and neither its base name
    nor the components below it hold a slash or a backslash (no file
    system allows the former in a name; Windows allows neither). *)
Theorem distinct_files_get_distinct_entries
    w source excludes files total p q :
  w_resolved w = source →
  (iter_files_with_size w source excludes).2 = inr (files, total) →
  p ∈ files → q ∈ files →
  forallb plain (base_parts source ++ rel_of w p) = true →
  forallb plain (base_parts source ++ rel_of w q) = true →
  p ≠ q →
  arcname (w_flavour w) source p ≠ arcname (w_flavour w) source q.
Proof.
  intros <- Hscan Hp Hq Hpp Hpq Hne. revert Hne.
  assert (arcname (w_flavour w) (w_resolved w) p
          = arcname (w_flavour w) (w_resolved w) q → p = q) as Hinj;
    [|by intros Hne Heq; apply Hne, Hinj].
  rewrite iter_files_with_size_result in Hscan. injection Hscan as <- <-.
  apply scan_files_elem in Hp as (rp & Hrp & ->).
  apply scan_files_elem in Hq as (rq & Hrq & ->).
  rewrite !rel_of_at_root in *.
  apply select_clean in Hrp as (dp & np & Hdp & _).
  apply select_clean in Hrq as (dq & nq & Hdq & _).
  assert (rp.1 ≠ []) as Hnp by (rewrite Hdp; by destruct dp).
  assert (rq.1 ≠ []) as Hnq by (rewrite Hdq; by destruct dq).
  destruct (forallb_plain _ Hpp) as [Hsp Hbp].
  destruct (forallb_plain _ Hpq) as [Hsq Hbq].
  rewrite !arcname_at_root by done. intros [= Heq].
  apply (f_equal (split_on "/")) in Heq.
  rewrite !(split_on_concat_free "/") in Heq; try done.
  - apply app_inv_head in Heq. by rewrite Heq.
  - intros [_ ?]%app_eq_nil. done.
  - intros [_ ?]%app_eq_nil. done.
Qed.

Lemma distinct_files_get_distinct_entries_witness :
  arcname Posix proj_path (mkPath "/" ["home"; "u"; "proj"; "a.txt"])
  ≠ arcname Posix proj_path (mkPath "/" ["home"; "u"; "proj"; "sub"; "b.txt"]).
Proof.
  apply (distinct_files_get_distinct_entries proj_world proj_path git_only
           [mkPath "/" ["home"; "u"; "proj"; "a.txt"];
            mkPath "/" ["home"; "u"; "proj"; "sub"; "b.txt"]] 15);
    try (vm_compute; reflexivity).
  - apply list_elem_of_In. by left.
  - apply list_elem_of_In. right. by left.
  - discriminate.
Defined.
